(** * gendiff: the LCS diff engine ([Make]) and its compaction pass ([Compact])

    Shallow embedding of [gendiff.go].

    Go's [int] is modelled as [Z].  In [Make] every integer is an index
    into the table that has just been allocated or a length stored in it
    (at most the smaller of its two indices, [cell_length_bounds]), so once
    the allocation has succeeded nothing there can leave the range of
    [int]; running out of memory is not modelled.

    [Compact] takes a context length from its caller, and its arithmetic
    can leave the range of [int]: [contextLen * 2] wraps from
    [contextLen = 2^62] on.  It is therefore embedded twice.  [Compact64]
    is the code on a 64-bit platform, every [int] operation followed by
    the wrap-around.  [Compact] is the same text with exact integers; the
    two agree when the doubled context length is an [int] and the records
    are those of two sequences that exist ([Compact64_exact]).  The
    results that need this bound are stated of [Compact64], with the bound
    as a hypothesis.

    A comparison is an [Interface] with a predicate for [Equal].  The
    [Equal] methods of the package's test and example index their inputs
    and panic out of range; [InterfaceE] and [MakeE] model [Make] with
    such a method, and [MakeE_pure] shows that [Make] stays inside the
    range, where the predicate says what the method returns.

    Go slices are lists (the [nil] slice is the empty list), read and
    written through [index] and [set_index], which panic out of range as
    the Go runtime does.  A call results in an [outcome]: the value
    returned, or the panic that ended it. *)

From Stdlib Require Import ZArith Lia Bool String Ascii.
From stdpp Require Import base tactics option list.

Local Open Scope Z_scope.

(** ** Data model *)

(** [type Op int] with its four constants. *)
Inductive Op : Type :=
  | noOp
  | Match
  | Delete
  | Insert.

Global Instance Op_eq_dec : EqDecision Op.
Proof. solve_decision. Defined.

(** [func (o Op) String() string] *)
Definition Op_String (o : Op) : string :=
  match o with
  | Match => "match"
  | Delete => "delete"
  | Insert => "insert"
  | noOp => EmptyString
  end.

(** [type Interface interface { LeftLen() int; RightLen() int; Equal(l, r int) bool }] *)
Record Interface : Type := mkInterface {
  LeftLen : Z;
  RightLen : Z;
  Equal : Z → Z → bool
}.

(** [type Diff struct { Op; Lstart; Lend; Rstart; Rend }] *)
Record Diff : Type := mkDiff {
  dOp : Op;
  Lstart : Z;
  Lend : Z;
  Rstart : Z;
  Rend : Z
}.

Global Instance Diff_eq_dec : EqDecision Diff.
Proof. solve_decision. Defined.

(** [func (d Diff) Len() int] *)
Definition Len (d : Diff) : Z :=
  match dOp d with
  | Match => Lend d - Lstart d
  | Delete => Lend d - Lstart d
  | Insert => Rend d - Rstart d
  | noOp => -1
  end.

(** [type cell struct { op Op; length int }] *)
Record cell : Type := mkCell {
  op : Op;
  clength : Z
}.

(** The zero value that [make([]cell, n)] fills a row with. *)
Definition zero_cell : cell := mkCell noOp 0.
Definition zero_Diff : Diff := mkDiff noOp 0 0 0 0.

(** ** Panics and the outcome of a call *)

(** The value a goroutine panics with: an error of the Go runtime, or the
    value handed to [panic(...)] by the code. *)
Inductive runtime_error : Type :=
  | MakesliceLenOutOfRange   (* makeslice: len out of range *)
  | IndexOutOfRange.         (* index out of range *)

Inductive panic : Type :=
  | RuntimeError (e : runtime_error)
  | PanicValue (msg : string).

Inductive outcome (A : Type) : Type :=
  | Returned (a : A)
  | Panicked (p : panic)
  | Unfinished.              (* a loop that used up the fuel given to it *)
Arguments Returned {A} a.
Arguments Panicked {A} p.
Arguments Unfinished {A}.

Definition bind {A B} (m : outcome A) (k : A → outcome B) : outcome B :=
  match m with
  | Returned a => k a
  | Panicked p => Panicked p
  | Unfinished => Unfinished
  end.

Notation "x <~ m ;; k" := (bind m (fun x => k))
  (at level 100, m at next level, right associativity).

(** [make([]T, n, n)] *)
Definition make_slice {A} (n : Z) (zero : A) : outcome (list A) :=
  if n <? 0 then Panicked (RuntimeError MakesliceLenOutOfRange)
  else Returned (replicate (Z.to_nat n) zero).

(** [s[i]] as a value *)
Definition index {A} (s : list A) (i : Z) : outcome A :=
  if i <? 0 then Panicked (RuntimeError IndexOutOfRange)
  else match s !! Z.to_nat i with
       | Some x => Returned x
       | None => Panicked (RuntimeError IndexOutOfRange)
       end.

(** [s[i] = x] *)
Definition set_index {A} (s : list A) (i : Z) (x : A) : outcome (list A) :=
  if (i <? 0) || (Z.of_nat (length s) <=? i) then Panicked (RuntimeError IndexOutOfRange)
  else Returned (<[Z.to_nat i := x]> s).

(** [table[l][r]] as a value *)
Definition index2 (table : list (list cell)) (l r : Z) : outcome cell :=
  row <~ index table l ;; index row r.

(** [table[l][r] = c] *)
Definition set_index2 (table : list (list cell)) (l r : Z) (c : cell)
  : outcome (list (list cell)) :=
  row <~ index table l ;;
  row' <~ set_index row r c ;;
  set_index table l row'.

(** A [for] loop over the indices [idxs], threading the state [s]. *)
Fixpoint for_range {St} (idxs : list Z) (body : Z → St → outcome St) (s : St)
  : outcome St :=
  match idxs with
  | [] => Returned s
  | i :: rest => s' <~ body i s ;; for_range rest body s'
  end.

(** The indices of [for i = range s]. *)
Definition range {A} (s : list A) : list Z := seqZ 0 (Z.of_nat (length s)).

(** ** [Make] *)

(** The [switch] of the fill loop, at [table[lidx][ridx]]. *)
Definition fill_cell (equal : Z → Z → bool) (lidx ridx : Z)
  (table : list (list cell)) : outcome (list (list cell)) :=
  lcell <~ index2 table lidx (ridx - 1) ;;
  rcell <~ index2 table (lidx - 1) ridx ;;
  lrcell <~ index2 table (lidx - 1) (ridx - 1) ;;
  if equal (lidx - 1) (ridx - 1) then
    set_index2 table lidx ridx (mkCell Match (clength lrcell + 1))
  else if clength lcell <? clength rcell then
    set_index2 table lidx ridx (mkCell Delete (clength rcell))
  else if clength lcell >=? clength rcell then
    set_index2 table lidx ridx (mkCell Insert (clength lcell))
  else Returned table.

(** Everything up to the end of the fill loops: the labelled table. *)
Definition build_table (llen rlen : Z) (equal : Z → Z → bool)
  : outcome (list (list cell)) :=
  table <~ make_slice (llen + 1) ([] : list cell) ;;
  table <~ for_range (range table) (fun lidx table =>
             row <~ make_slice (rlen + 1) zero_cell ;;
             set_index table lidx row) table ;;
  table <~ for_range (range table) (fun lidx table =>
             set_index2 table lidx 0 (mkCell Delete 0)) table ;;
  row0 <~ index table 0 ;;
  table <~ for_range (range row0) (fun ridx table =>
             set_index2 table 0 ridx (mkCell Insert 0)) table ;;
  table <~ set_index2 table 0 0 (mkCell Match 0) ;;
  for_range (seqZ 1 llen) (fun lidx table =>
    for_range (seqZ 1 rlen) (fun ridx table =>
      fill_cell equal lidx ridx table) table) table.

(** The variables the closure [record] captures and mutates. *)
Record trace_state : Type := mkTrace {
  diffs : list Diff;
  lastdiff : Diff
}.

(** [record := func(op Op, lidx, ridx int) { ... }] *)
Definition record (o : Op) (lidx ridx : Z) (st : trace_state) : trace_state :=
  let ld := lastdiff st in
  let ld := mkDiff (dOp ld) lidx (Lend ld) ridx (Rend ld) in
  if decide (o ≠ dOp ld) then
    mkTrace (diffs st ++ [ld]) (mkDiff o (Lstart ld) (Lstart ld) (Rstart ld) (Rstart ld))
  else mkTrace (diffs st) ld.

(** [for lidx > 0 || ridx > 0 { ... }] *)
Fixpoint trace (fuel : nat) (table : list (list cell)) (lidx ridx : Z)
  (st : trace_state) : outcome trace_state :=
  if (lidx >? 0) || (ridx >? 0) then
    match fuel with
    | O => Unfinished
    | S fuel' =>
        c <~ index2 table lidx ridx ;;
        let st' := record (op c) lidx ridx st in
        match op c with
        | Match => trace fuel' table (lidx - 1) (ridx - 1) st'
        | Delete => trace fuel' table (lidx - 1) ridx st'
        | Insert => trace fuel' table lidx (ridx - 1) st'
        | noOp =>
            Panicked (PanicValue "DP table construction error, please file a bug report.")
        end
    end
  else Returned st.

(** The final loop, [revdiffs[len(diffs)-idx-1] = diffs[idx]]. *)
Definition reverse_diffs (ds : list Diff) : outcome (list Diff) :=
  revdiffs <~ make_slice (Z.of_nat (length ds)) zero_Diff ;;
  for_range (range ds) (fun idx revdiffs =>
    d <~ index ds idx ;;
    set_index revdiffs (Z.of_nat (length ds) - idx - 1) d) revdiffs.

(** [func Make(iface Interface) []Diff].  Every iteration of the backward
    loop lowers [lidx + ridx], so [llen + rlen] iterations are all it can
    take. *)
Definition Make (iface : Interface) : outcome (list Diff) :=
  let llen := LeftLen iface in
  let rlen := RightLen iface in
  table <~ build_table llen rlen (Equal iface) ;;
  lastcell <~ index2 table llen rlen ;;
  let st := mkTrace [] (mkDiff (op lastcell) llen llen rlen rlen) in
  st <~ trace (Z.to_nat (llen + rlen)) table llen rlen st ;;
  let st := record noOp 0 0 st in
  reverse_diffs (diffs st).

(** ** [Compact] *)

(** The text of [Compact] with exact integers; [Compact64] further down
    is the same text with the wrap-around of a 64-bit [int]. *)

Definition is_Match (d : Diff) : bool := bool_decide (dOp d = Match).

(** [prefix := func(match Diff) Diff { ... }], a closure over [contextLen] *)
Definition prefix (contextLen : Z) (match_ : Diff) : Diff :=
  mkDiff Match (Lstart match_) (Lstart match_ + contextLen)
               (Rstart match_) (Rstart match_ + contextLen).

(** [suffix := func(match Diff) Diff { ... }] *)
Definition suffix (contextLen : Z) (match_ : Diff) : Diff :=
  mkDiff Match (Lend match_ - contextLen) (Lend match_)
               (Rend match_ - contextLen) (Rend match_).

(** the [if] on the first element: cut down to the side facing the interior *)
Definition trim_first (contextLen : Z) (first : Diff) : Diff :=
  if is_Match first && (Len first >? contextLen) then suffix contextLen first
  else first.

(** the [if] on the last element *)
Definition trim_last (contextLen : Z) (last : Diff) : Diff :=
  if is_Match last && (Len last >? contextLen) then prefix contextLen last
  else last.

(** the body of [for _, d := range middle] *)
Definition compact_middle (contextLen : Z) (out : list Diff) (d : Diff) : list Diff :=
  if is_Match d && (Len d >? contextLen * 2)
  then out ++ [prefix contextLen d; suffix contextLen d]
  else out ++ [d].

(** [func Compact(diffs []Diff, contextLen int) []Diff], with exact
    integers ([Compact64] has the wrap-around of [int]) *)
Definition Compact (diffs : list Diff) (contextLen : Z) : list Diff :=
  match diffs with
  | [] => diffs
  | [d0] => if is_Match d0 then [] else diffs
  | [d0; d1] =>
      if is_Match d0 && (Len d0 >? contextLen) then [suffix contextLen d0; d1]
      else if is_Match d1 && (Len d1 >? contextLen) then [d0; prefix contextLen d1]
      else diffs
  | first :: rest =>
      let middle := removelast rest in
      let last := List.last rest first in
      let out := [trim_first contextLen first] in
      let out := foldl (compact_middle contextLen) out middle in
      out ++ [trim_last contextLen last]
  end.

(** ** The comparison of two strings used by the package's tests *)

Definition byte_at (s : string) (i : Z) : option ascii :=
  if i <? 0 then None else String.get (Z.to_nat i) s.

(** [testcase{left, right}] with [Equal(l, r) = c.left[l] == c.right[r]],
    as a predicate: the result of [Equal] on positions of the two strings,
    [false] elsewhere, where the method panics.  [Make] calls it on
    positions of the two strings only ([testcaseE], [MakeE_testcaseE]). *)
Definition testcase (left right : string) : Interface :=
  mkInterface (Z.of_nat (String.length left)) (Z.of_nat (String.length right))
    (fun l r => match byte_at left l, byte_at right r with
                | Some a, Some b => Ascii.eqb a b
                | _, _ => false
                end).

(** [Compact(Make(test), contextLen)], as [TestCompact] calls it *)
Definition Make_then_Compact (iface : Interface) (contextLen : Z) : outcome (list Diff) :=
  ds <~ Make iface ;; Returned (Compact ds contextLen).

(** * Specification vocabulary *)

(** ** The table *)

Definition dims (table : list (list cell)) (nl nr : Z) : Prop :=
  Z.of_nat (length table) = nl ∧
  ∀ k row, table !! k = Some row → Z.of_nat (length row) = nr.

(** What the fill loops leave in the table: the base row and column, and
    at every inner position the cell chosen by the [switch] from its three
    neighbours. *)
Definition step_cell (eq : bool) (lcell rcell lrcell : cell) : cell :=
  if eq then mkCell Match (clength lrcell + 1)
  else if clength lcell <? clength rcell then mkCell Delete (clength rcell)
  else mkCell Insert (clength lcell).

Definition inner_ok (equal : Z → Z → bool) (table : list (list cell)) (l r : Z) : Prop :=
  ∃ lcell rcell lrcell,
    index2 table l (r - 1) = Returned lcell ∧
    index2 table (l - 1) r = Returned rcell ∧
    index2 table (l - 1) (r - 1) = Returned lrcell ∧
    index2 table l r = Returned (step_cell (equal (l - 1) (r - 1)) lcell rcell lrcell).

Record table_ok (equal : Z → Z → bool) (llen rlen : Z) (table : list (list cell)) : Prop := {
  ok_dims : dims table (llen + 1) (rlen + 1);
  ok_origin : index2 table 0 0 = Returned (mkCell Match 0);
  ok_col0 : ∀ l, 1 ≤ l ≤ llen → index2 table l 0 = Returned (mkCell Delete 0);
  ok_row0 : ∀ r, 1 ≤ r ≤ rlen → index2 table 0 r = Returned (mkCell Insert 0);
  ok_inner : ∀ l r, 1 ≤ l ≤ llen → 1 ≤ r ≤ rlen → inner_ok equal table l r
}.

(** the table before the fill loops *)
Definition base_ok (llen rlen : Z) (t : list (list cell)) : Prop :=
  dims t (llen + 1) (rlen + 1) ∧
  index2 t 0 0 = Returned (mkCell Match 0) ∧
  (∀ l, 1 ≤ l ≤ llen → index2 t l 0 = Returned (mkCell Delete 0)) ∧
  (∀ r, 1 ≤ r ≤ rlen → index2 t 0 r = Returned (mkCell Insert 0)).

(** the inner cells written so far, in row-major order, before [(i, j)] *)
Definition filled (equal : Z → Z → bool) (llen rlen : Z)
  (t : list (list cell)) (i j : Z) : Prop :=
  ∀ l r, 1 ≤ l ≤ llen → 1 ≤ r ≤ rlen → l < i ∨ (l = i ∧ r < j) →
         inner_ok equal t l r.

(** ** Edit scripts *)

(** A record is a run of its operation: a [Match] advances both sides by
    the same amount over equal pairs, a [Delete] only the left side, an
    [Insert] only the right side. *)
Definition run_ok (equal : Z → Z → bool) (d : Diff) : Prop :=
  match dOp d with
  | Match => Lstart d ≤ Lend d ∧ Lend d - Lstart d = Rend d - Rstart d ∧
             ∀ i, 0 ≤ i < Lend d - Lstart d →
                  equal (Lstart d + i) (Rstart d + i) = true
  | Delete => Lstart d ≤ Lend d ∧ Rstart d = Rend d
  | Insert => Lstart d = Lend d ∧ Rstart d ≤ Rend d
  | noOp => False
  end.

(** [chain l r ds l' r']: the records of [ds] lead from [(l, r)] to
    [(l', r')], each one starting where the one before it ends. *)
Fixpoint chain (l r : Z) (ds : list Diff) (l' r' : Z) : Prop :=
  match ds with
  | [] => l = l' ∧ r = r'
  | d :: ds' => Lstart d = l ∧ Rstart d = r ∧ chain (Lend d) (Rend d) ds' l' r'
  end.

(** no two consecutive records with the same operation *)
Fixpoint alternating (ds : list Diff) : Prop :=
  match ds with
  | d :: ds' =>
      match ds' with
      | d' :: _ => dOp d ≠ dOp d'
      | [] => True
      end ∧ alternating ds'
  | [] => True
  end.

(** the sum of the lengths of the [Match] records *)
Fixpoint match_total (ds : list Diff) : Z :=
  match ds with
  | [] => 0
  | d :: ds' => (if is_Match d then Len d else 0) + match_total ds'
  end.

(** ** The state of the backward loop *)

(** [lastdiff] as [record] would emit it at [(l, r)] *)
Definition pending (l r : Z) (st : trace_state) : Diff :=
  mkDiff (dOp (lastdiff st)) l (Lend (lastdiff st)) r (Rend (lastdiff st)).

(** the script collected so far, read left to right from [(l, r)] *)
Definition collected (l r : Z) (st : trace_state) : list Diff :=
  pending l r st :: reverse (diffs st).

(** one step back from [(l, r)] to [(l', r')] under operation [o] *)
Definition back_step (equal : Z → Z → bool) (o : Op) (l r l' r' : Z) : Prop :=
  match o with
  | Match => l' = l - 1 ∧ r' = r - 1 ∧ equal l' r' = true
  | Delete => l' = l - 1 ∧ r' = r
  | Insert => l' = l ∧ r' = r - 1
  | noOp => False
  end.

(** the left indices [[Lstart, Lend)] and the right indices [[Rstart, Rend)]
    of a record, in ascending order *)
Definition left_range (d : Diff) : list Z := seqZ (Lstart d) (Lend d - Lstart d).
Definition right_range (d : Diff) : list Z := seqZ (Rstart d) (Rend d - Rstart d).

(** ** Failures *)

(** A failure that [Make] raises itself, with a value of its own, as a
    check of its input would; the errors of the Go runtime are not. *)
Definition raised_by_check {A} (o : outcome A) : Prop :=
  ∃ msg, o = Panicked (PanicValue msg).

(** ** Well-formed scripts and what compaction does to an interior record *)

(** A well-formed edit script for lengths [nl] and [nr]: a non-empty list
    of runs that starts at [(0, 0)], ends at [(nl, nr)], each record
    starting where the previous one ends, no two neighbours with the same
    operation. *)
Definition well_formed (equal : Z → Z → bool) (nl nr : Z) (ds : list Diff) : Prop :=
  ds ≠ [] ∧ chain 0 0 ds nl nr ∧ Forall (run_ok equal) ds ∧ alternating ds.

(** The records that stand for an interior record [d] after compaction
    with context length [k]: the first [k] and the last [k] positions of a
    [Match] longer than [2 * k], the record itself otherwise. *)
Definition interior_records (k : Z) (d : Diff) : list Diff :=
  if decide (dOp d = Match ∧ 2 * k < Len d)
  then [mkDiff Match (Lstart d) (Lstart d + k) (Rstart d) (Rstart d + k);
        mkDiff Match (Lend d - k) (Lend d) (Rend d - k) (Rend d)]
  else [d].

(** ** Applying a script *)

(** [s[lo:hi]] *)
Definition slice {A} (s : list A) (lo hi : Z) : list A :=
  take (Z.to_nat (hi - lo)) (drop (Z.to_nat lo) s).

(** What a record leaves in the result when the script is applied to the
    left sequence, read the way the package's example walks a script: a
    [Match] keeps the left elements [[Lstart, Lend)], an [Insert] brings in
    the right elements [[Rstart, Rend)], a [Delete] leaves nothing. *)
Definition apply_Diff {A} (left right : list A) (d : Diff) : list A :=
  match dOp d with
  | Match => slice left (Lstart d) (Lend d)
  | Insert => slice right (Rstart d) (Rend d)
  | Delete => []
  | noOp => []
  end.

Definition apply_script {A} (left right : list A) (ds : list Diff) : list A :=
  ds ≫= apply_Diff left right.

(** The same with the [Match] ranges read from the right sequence. *)
Definition apply_Diff_right {A} (right : list A) (d : Diff) : list A :=
  match dOp d with
  | Match => slice right (Rstart d) (Rend d)
  | Insert => slice right (Rstart d) (Rend d)
  | Delete => []
  | noOp => []
  end.

Definition apply_script_right {A} (right : list A) (ds : list Diff) : list A :=
  ds ≫= apply_Diff_right right.

(** elements matched by the predicate are equal *)
Definition respects {A} (equal : Z → Z → bool) (left right : list A) : Prop :=
  ∀ l r x y, 0 ≤ l → 0 ≤ r → equal l r = true →
             left !! Z.to_nat l = Some x → right !! Z.to_nat r = Some y → x = y.

(** ** Common subsequences *)

(** [common_subseq equal lo_l lo_r hi_l hi_r ps]: the index pairs [ps] are a
    common subsequence of the left positions [[lo_l, hi_l)] and the right
    positions [[lo_r, hi_r)]: they increase strictly on both sides and the
    predicate holds of every pair. *)
Fixpoint common_subseq (equal : Z → Z → bool) (lo_l lo_r hi_l hi_r : Z)
  (ps : list (Z * Z)) : Prop :=
  match ps with
  | [] => True
  | (i, j) :: ps' =>
      lo_l ≤ i < hi_l ∧ lo_r ≤ j < hi_r ∧ equal i j = true ∧
      common_subseq equal (i + 1) (j + 1) hi_l hi_r ps'
  end.

(** the index pairs a record, and a script, match *)
Definition matched_pairs_of (d : Diff) : list (Z * Z) :=
  match dOp d with
  | Match => zip (left_range d) (right_range d)
  | _ => []
  end.

Definition matched_pairs (ds : list Diff) : list (Z * Z) :=
  ds ≫= matched_pairs_of.

(** ** The comparison of two lists of lines used by the package's example *)

(** [StringCompare{LeftLines, RightLines}] with
    [Equal(l, r) = c.LeftLines[l] == c.RightLines[r]], as a predicate: the
    result of [Equal] on positions of the two lists, [false] elsewhere,
    where the method panics ([StringCompareE] is the method itself). *)
Definition StringCompare (LeftLines RightLines : list string) : Interface :=
  mkInterface (Z.of_nat (length LeftLines)) (Z.of_nat (length RightLines))
    (fun l r =>
       if (l <? 0) || (r <? 0) then false
       else match LeftLines !! Z.to_nat l, RightLines !! Z.to_nat r with
            | Some a, Some b => String.eqb a b
            | _, _ => false
            end).

(** ** Totals and the left side of a script *)

(** the sum of the lengths of the records with operation [o] *)
Fixpoint op_total (o : Op) (ds : list Diff) : Z :=
  match ds with
  | [] => 0
  | d :: ds' => (if decide (dOp d = o) then Len d else 0) + op_total o ds'
  end.

(** What a record shows of the left sequence, as the package's example
    prints it: the left elements [[Lstart, Lend)] of a [Match] and of a
    [Delete], nothing for an [Insert]. *)
Definition left_of_Diff {A} (left : list A) (d : Diff) : list A :=
  match dOp d with
  | Match => slice left (Lstart d) (Lend d)
  | Delete => slice left (Lstart d) (Lend d)
  | Insert => []
  | noOp => []
  end.

Definition left_of_script {A} (left : list A) (ds : list Diff) : list A :=
  ds ≫= left_of_Diff left.

(** what the data model asks of a record, by operation *)
Definition shape_ok (d : Diff) : Prop :=
  match dOp d with
  | Match => Lend d - Lstart d = Rend d - Rstart d
  | Delete => Rstart d = Rend d
  | Insert => Lstart d = Lend d
  | noOp => False
  end.

(** ** What compaction keeps *)

(** the records of a script that are not a [Match]: its edits *)
Definition edits (ds : list Diff) : list Diff :=
  filter (fun d => dOp d ≠ Match) ds.

(** [within l r ds l' r']: the records of [ds] are ranges in ascending
    order between [(l, r)] and [(l', r')], each one starting at or after
    the end of the one before it (gaps allowed) and ending at or after its
    own start. *)
Fixpoint within (l r : Z) (ds : list Diff) (l' r' : Z) : Prop :=
  match ds with
  | [] => l ≤ l' ∧ r ≤ r'
  | d :: ds' =>
      l ≤ Lstart d ∧ r ≤ Rstart d ∧
      Lstart d ≤ Lend d ∧ Rstart d ≤ Rend d ∧
      within (Lend d) (Rend d) ds' l' r'
  end.

(** * The code on 64-bit integers, and with an [Equal] that can panic *)

(** ** [Compact] with wrap-around *)

(** The least and the greatest [int] of a 64-bit platform, and the value
    an [int] operation leaves when its exact result [z] is out of range
    (two's complement wrap-around). *)
Definition MinInt64 : Z := -9223372036854775808.
Definition MaxInt64 : Z := 9223372036854775807.
Definition wrap (z : Z) : Z :=
  (z + 9223372036854775808) mod 18446744073709551616 - 9223372036854775808.

(** [func (d Diff) Len() int] *)
Definition Len64 (d : Diff) : Z :=
  match dOp d with
  | Match => wrap (Lend d - Lstart d)
  | Delete => wrap (Lend d - Lstart d)
  | Insert => wrap (Rend d - Rstart d)
  | noOp => -1
  end.

(** [prefix := func(match Diff) Diff { ... }] *)
Definition prefix64 (contextLen : Z) (match_ : Diff) : Diff :=
  mkDiff Match (Lstart match_) (wrap (Lstart match_ + contextLen))
               (Rstart match_) (wrap (Rstart match_ + contextLen)).

(** [suffix := func(match Diff) Diff { ... }] *)
Definition suffix64 (contextLen : Z) (match_ : Diff) : Diff :=
  mkDiff Match (wrap (Lend match_ - contextLen)) (Lend match_)
               (wrap (Rend match_ - contextLen)) (Rend match_).

(** the [if] on the first element *)
Definition trim_first64 (contextLen : Z) (first : Diff) : Diff :=
  if is_Match first && (Len64 first >? contextLen) then suffix64 contextLen first
  else first.

(** the [if] on the last element *)
Definition trim_last64 (contextLen : Z) (last : Diff) : Diff :=
  if is_Match last && (Len64 last >? contextLen) then prefix64 contextLen last
  else last.

(** the body of [for _, d := range middle] *)
Definition compact_middle64 (contextLen : Z) (out : list Diff) (d : Diff) : list Diff :=
  if is_Match d && (Len64 d >? wrap (contextLen * 2))
  then out ++ [prefix64 contextLen d; suffix64 contextLen d]
  else out ++ [d].

(** [func Compact(diffs []Diff, contextLen int) []Diff], every [int]
    operation wrapping as it does on a 64-bit platform *)
Definition Compact64 (diffs : list Diff) (contextLen : Z) : list Diff :=
  match diffs with
  | [] => diffs
  | [d0] => if is_Match d0 then [] else diffs
  | [d0; d1] =>
      if is_Match d0 && (Len64 d0 >? contextLen) then [suffix64 contextLen d0; d1]
      else if is_Match d1 && (Len64 d1 >? contextLen) then [d0; prefix64 contextLen d1]
      else diffs
  | first :: rest =>
      let middle := removelast rest in
      let last := List.last rest first in
      let out := [trim_first64 contextLen first] in
      let out := foldl (compact_middle64 contextLen) out middle in
      out ++ [trim_last64 contextLen last]
  end.

(** a record whose indices are those of two sequences that exist: within
    the non-negative [int]s, start before end, and a [Match] as long on
    the right as on the left *)
Definition fits (d : Diff) : Prop :=
  0 ≤ Lstart d ∧ Lstart d ≤ Lend d ∧ Lend d ≤ MaxInt64 ∧
  0 ≤ Rstart d ∧ Rstart d ≤ Rend d ∧ Rend d ≤ MaxInt64 ∧
  (dOp d = Match → Lend d - Lstart d = Rend d - Rstart d).

(** ** [Make] for an interface whose [Equal] can panic *)

(** [type Interface interface { ... }], with [Equal] as a Go method: a
    call returns a [bool] or panics. *)
Record InterfaceE : Type := mkInterfaceE {
  LeftLenE : Z;
  RightLenE : Z;
  EqualE : Z → Z → outcome bool
}.

(** the [switch] of the fill loop, [iface.Equal(lidx-1, ridx-1)] called
    after the three neighbours have been read *)
Definition fill_cellE (equal : Z → Z → outcome bool) (lidx ridx : Z)
  (table : list (list cell)) : outcome (list (list cell)) :=
  lcell <~ index2 table lidx (ridx - 1) ;;
  rcell <~ index2 table (lidx - 1) ridx ;;
  lrcell <~ index2 table (lidx - 1) (ridx - 1) ;;
  eq <~ equal (lidx - 1) (ridx - 1) ;;
  if eq then
    set_index2 table lidx ridx (mkCell Match (clength lrcell + 1))
  else if clength lcell <? clength rcell then
    set_index2 table lidx ridx (mkCell Delete (clength rcell))
  else if clength lcell >=? clength rcell then
    set_index2 table lidx ridx (mkCell Insert (clength lcell))
  else Returned table.

Definition build_tableE (llen rlen : Z) (equal : Z → Z → outcome bool)
  : outcome (list (list cell)) :=
  table <~ make_slice (llen + 1) ([] : list cell) ;;
  table <~ for_range (range table) (fun lidx table =>
             row <~ make_slice (rlen + 1) zero_cell ;;
             set_index table lidx row) table ;;
  table <~ for_range (range table) (fun lidx table =>
             set_index2 table lidx 0 (mkCell Delete 0)) table ;;
  row0 <~ index table 0 ;;
  table <~ for_range (range row0) (fun ridx table =>
             set_index2 table 0 ridx (mkCell Insert 0)) table ;;
  table <~ set_index2 table 0 0 (mkCell Match 0) ;;
  for_range (seqZ 1 llen) (fun lidx table =>
    for_range (seqZ 1 rlen) (fun ridx table =>
      fill_cellE equal lidx ridx table) table) table.

(** [func Make(iface Interface) []Diff] *)
Definition MakeE (iface : InterfaceE) : outcome (list Diff) :=
  let llen := LeftLenE iface in
  let rlen := RightLenE iface in
  table <~ build_tableE llen rlen (EqualE iface) ;;
  lastcell <~ index2 table llen rlen ;;
  let st := mkTrace [] (mkDiff (op lastcell) llen llen rlen rlen) in
  st <~ trace (Z.to_nat (llen + rlen)) table llen rlen st ;;
  let st := record noOp 0 0 st in
  reverse_diffs (diffs st).

(** [StringCompare{LeftLines, RightLines}] of the example, with
    [Equal(l, r) = c.LeftLines[l] == c.RightLines[r]]: either index
    expression panics out of range. *)
Definition StringCompareE (LeftLines RightLines : list string) : InterfaceE :=
  mkInterfaceE (Z.of_nat (length LeftLines)) (Z.of_nat (length RightLines))
    (fun l r =>
       a <~ index LeftLines l ;;
       b <~ index RightLines r ;;
       Returned (String.eqb a b)).

(** [s[i]] on a Go string: the byte at [i], a panic out of range *)
Definition byte_index (s : string) (i : Z) : outcome ascii :=
  match byte_at s i with
  | Some a => Returned a
  | None => Panicked (RuntimeError IndexOutOfRange)
  end.

(** [testcase{left, right}] of the tests, with
    [Equal(l, r) = c.left[l] == c.right[r]] panicking out of range *)
Definition testcaseE (left right : string) : InterfaceE :=
  mkInterfaceE (Z.of_nat (String.length left)) (Z.of_nat (String.length right))
    (fun l r =>
       a <~ byte_index left l ;;
       b <~ byte_index right r ;;
       Returned (Ascii.eqb a b)).

(** ** The package's example program *)

(** A loop over the elements of a slice, [for _, x := range xs], threading
    the state [s]. *)
Fixpoint for_each {A St} (xs : list A) (body : A → St → outcome St) (s : St)
  : outcome St :=
  match xs with
  | [] => Returned s
  | x :: rest => s' <~ body x s ;; for_each rest body s'
  end.

(** [for i := lo; i < hi; i++ { fmt.Println(pre + lines[i]) }]; the state
    is what has been printed, line by line. *)
Definition print_lines (pre : string) (lines : list string) (lo hi : Z)
  (out : list string) : outcome (list string) :=
  for_range (seqZ lo (hi - lo)) (fun i out =>
    line <~ index lines i ;;
    Returned (out ++ [String.append pre line])) out.

(** the [switch d.Op] of [main] *)
Definition print_Diff (LeftLines RightLines : list string) (d : Diff)
  (out : list string) : outcome (list string) :=
  match dOp d with
  | Match => print_lines "    " LeftLines (Lstart d) (Lend d) out
  | Delete => print_lines "--- " LeftLines (Lstart d) (Lend d) out
  | Insert => print_lines "+++ " RightLines (Rstart d) (Rend d) out
  | noOp => Returned out
  end.

(** [main], for any two lists of lines: [Make] and the printing loop *)
Definition main_on (LeftLines RightLines : list string) : outcome (list string) :=
  diffs <~ MakeE (StringCompareE LeftLines RightLines) ;;
  for_each diffs (print_Diff LeftLines RightLines) [].

(** [func main()] with the lines it compares *)
Definition main : outcome (list string) :=
  main_on
    ["the"; "quick"; "brown"; "fox"; "jumps"; "over"; "the"; "lazy"; "dog"]%string
    ["the"; "quick"; "brown"; "dog"; "jumps"; "over"; "the"; "lazy"; "fox"]%string.

(** Reading the printed lines: the four-character marker a line starts
    with, the text after it, and the texts of the lines that do not carry
    the marker [m]. *)
Definition marker (s : string) : string := String.substring 0 4 s.
Definition text (s : string) : string :=
  String.substring 4 (String.length s - 4) s.
Definition lines_without (m : string) (out : list string) : list string :=
  text <$> List.filter (fun s => negb (String.eqb (marker s) m)) out.

(** the lines [main] prints for a record *)
Definition printed_of_Diff (LeftLines RightLines : list string) (d : Diff)
  : list string :=
  match dOp d with
  | Match => String.append "    " <$> slice LeftLines (Lstart d) (Lend d)
  | Delete => String.append "--- " <$> slice LeftLines (Lstart d) (Lend d)
  | Insert => String.append "+++ " <$> slice RightLines (Rstart d) (Rend d)
  | noOp => []
  end.

(** ** The end of the script, and the two sides exchanged *)

(** [anchored o st]: the record that will come last in the script, the
    first one the backward loop emits or else the pending one, carries the
    operation [o]. *)
Definition anchored (o : Op) (st : trace_state) : Prop :=
  match diffs st with
  | [] => dOp (lastdiff st) = o
  | d :: _ => dOp d = o
  end.

(** the comparison with left and right exchanged *)
Definition exchange (iface : Interface) : Interface :=
  mkInterface (RightLen iface) (LeftLen iface) (fun l r => Equal iface r l).

(** * Verification *)

(** ** The outcome monad and the slice primitives *)

Lemma bind_Returned {A B} (m : outcome A) (k : A → outcome B) b :
  bind m k = Returned b ↔ ∃ a, m = Returned a ∧ k a = Returned b.
Proof.
  destruct m as [a|p|]; simpl; split; try (intros [a' [? ?]]); try discriminate; eauto.
  congruence.
Qed.

Lemma index_Returned {A} (s : list A) i x :
  index s i = Returned x ↔ 0 ≤ i ∧ s !! Z.to_nat i = Some x.
Proof.
  unfold index. destruct (Z.ltb_spec i 0).
  - split; [discriminate | lia].
  - destruct (s !! Z.to_nat i) eqn:E; split; intros H'; try discriminate.
    + inversion H'; subst. auto.
    + destruct H' as [_ H']. congruence.
    + destruct H' as [_ H']. discriminate.
Qed.

Lemma index_in_range {A} (s : list A) i :
  0 ≤ i < Z.of_nat (length s) → ∃ x, index s i = Returned x.
Proof.
  intros Hi. destruct (lookup_lt_is_Some_2 s (Z.to_nat i)) as [x Hx]; [lia|].
  exists x. apply index_Returned. split; [lia | done].
Qed.

Lemma set_index_Returned {A} (s : list A) i x s' :
  set_index s i x = Returned s' ↔
  0 ≤ i < Z.of_nat (length s) ∧ s' = <[Z.to_nat i := x]> s.
Proof.
  unfold set_index.
  destruct (Z.ltb_spec i 0); destruct (Z.leb_spec (Z.of_nat (length s)) i); simpl;
    split; intros H'; try discriminate; try lia.
  - inversion H'. split; [lia | done].
  - destruct H' as [_ ->]. done.
Qed.

(** ** Loops with an invariant *)

Lemma for_range_inv {St} (P : Z → St → Prop) (body : Z → St → outcome St) n :
  ∀ m s, P m s →
  (∀ i s, m ≤ i < m + Z.of_nat n → P i s →
          ∃ s', body i s = Returned s' ∧ P (i + 1) s') →
  ∃ s', for_range (seqZ m (Z.of_nat n)) body s = Returned s' ∧ P (m + Z.of_nat n) s'.
Proof.
  induction n as [|n IH]; intros m s HP Hbody.
  - exists s. simpl. replace (m + Z.of_nat 0) with m by lia. auto.
  - rewrite seqZ_cons by lia. simpl.
    destruct (Hbody m s) as [s1 [E1 HP1]]; [lia | done |].
    rewrite E1. simpl.
    replace (Z.pred (Z.of_nat (S n))) with (Z.of_nat n) by lia.
    destruct (IH (Z.succ m) s1) as [s2 [E2 HP2]].
    + replace (Z.succ m) with (m + 1) by lia. done.
    + intros i s' Hi. apply Hbody. lia.
    + exists s2. split; [done|].
      replace (m + Z.of_nat (S n)) with (Z.succ m + Z.of_nat n) by lia. done.
Qed.

Lemma for_range_seqZ {St} (P : Z → St → Prop) (body : Z → St → outcome St) m n s :
  0 ≤ n → P m s →
  (∀ i s, m ≤ i < m + n → P i s → ∃ s', body i s = Returned s' ∧ P (i + 1) s') →
  ∃ s', for_range (seqZ m n) body s = Returned s' ∧ P (m + n) s'.
Proof.
  intros Hn HP Hbody.
  destruct (for_range_inv P body (Z.to_nat n) m s) as [s' [E HP']]; [done | |].
  - intros i s0 Hi. apply Hbody. lia.
  - exists s'. rewrite Z2Nat.id in * by lia. done.
Qed.

(** ** The table as a two-dimensional array *)

Lemma index2_Returned table l r c :
  index2 table l r = Returned c ↔
  0 ≤ l ∧ 0 ≤ r ∧ ∃ row, table !! Z.to_nat l = Some row ∧ row !! Z.to_nat r = Some c.
Proof.
  unfold index2. rewrite bind_Returned. split.
  - intros [row [H1 H2]]. apply index_Returned in H1. apply index_Returned in H2.
    destruct H1, H2. eauto.
  - intros (Hl & Hr & row & H1 & H2). exists row.
    split; apply index_Returned; auto.
Qed.

Lemma index2_in_dims table nl nr l r :
  dims table nl nr → 0 ≤ l < nl → 0 ≤ r < nr →
  ∃ c, index2 table l r = Returned c.
Proof.
  intros [Hlen Hrows] Hl Hr.
  destruct (lookup_lt_is_Some_2 table (Z.to_nat l)) as [row Hrow]; [lia|].
  pose proof (Hrows _ _ Hrow) as Hrl.
  destruct (lookup_lt_is_Some_2 row (Z.to_nat r)) as [c Hc]; [lia|].
  exists c. apply index2_Returned. eauto 6 with lia.
Qed.

Lemma index_insert_ne {A} (s : list A) (i j : Z) (x : A) :
  0 ≤ i → i ≠ j → index (<[Z.to_nat i := x]> s) j = index s j.
Proof.
  intros Hi Hne. unfold index. destruct (Z.ltb_spec j 0); [done|].
  rewrite list_lookup_insert_ne by lia. done.
Qed.

Lemma set_index2_spec table nl nr l r c :
  dims table nl nr → 0 ≤ l < nl → 0 ≤ r < nr →
  ∃ table', set_index2 table l r c = Returned table' ∧
    dims table' nl nr ∧
    index2 table' l r = Returned c ∧
    ∀ l' r', l' ≠ l ∨ r' ≠ r → index2 table' l' r' = index2 table l' r'.
Proof.
  intros [Hlen Hrows] Hl Hr.
  destruct (lookup_lt_is_Some_2 table (Z.to_nat l)) as [row Hrow]; [lia|].
  pose proof (Hrows _ _ Hrow) as Hrl.
  exists (<[Z.to_nat l := <[Z.to_nat r := c]> row]> table).
  assert (Hidx : index table l = Returned row) by (apply index_Returned; auto with lia).
  split; [|split; [|split]].
  - unfold set_index2. rewrite Hidx. simpl.
    assert (E : set_index row r c = Returned (<[Z.to_nat r := c]> row))
      by (apply set_index_Returned; split; [lia | done]).
    rewrite E. simpl. apply set_index_Returned. split; [lia | done].
  - split; [rewrite length_insert; done|].
    intros k row' Hk.
    destruct (decide (k = Z.to_nat l)) as [->|Hne].
    + rewrite list_lookup_insert_eq in Hk by lia.
      inversion Hk; subst. rewrite length_insert. done.
    + rewrite list_lookup_insert_ne in Hk by done. eauto.
  - apply index2_Returned. split; [lia|]. split; [lia|].
    exists (<[Z.to_nat r := c]> row). split.
    + apply list_lookup_insert_eq. lia.
    + apply list_lookup_insert_eq. lia.
  - intros l' r' Hne. unfold index2.
    destruct (decide (l' = l)) as [->|Hl'].
    + rewrite Hidx.
      assert (E : index (<[Z.to_nat l := <[Z.to_nat r := c]> row]> table) l
                  = Returned (<[Z.to_nat r := c]> row)).
      { apply index_Returned. split; [lia|]. apply list_lookup_insert_eq. lia. }
      rewrite E. simpl. apply index_insert_ne; [lia|]. destruct Hne; congruence.
    + rewrite index_insert_ne by lia. done.
Qed.


(** ** [build_table] returns a labelled table *)

Section BuildTable.
Variable equal : Z → Z → bool.
Variables llen rlen : Z.
Hypothesis Hllen : 0 ≤ llen.
Hypothesis Hrlen : 0 ≤ rlen.


Lemma inner_ok_frame t t' i j l r :
  (∀ l' r', l' ≠ i ∨ r' ≠ j → index2 t' l' r' = index2 t l' r') →
  l < i ∨ (l = i ∧ r < j) →
  inner_ok equal t l r → inner_ok equal t' l r.
Proof.
  intros Hframe Hlt (lc & rc & lrc & H1 & H2 & H3 & H4).
  exists lc, rc, lrc.
  rewrite !Hframe by lia. auto.
Qed.

Lemma fill_cell_spec t i j :
  base_ok llen rlen t → filled equal llen rlen t i j → 1 ≤ i ≤ llen → 1 ≤ j ≤ rlen →
  ∃ t', fill_cell equal i j t = Returned t' ∧ base_ok llen rlen t' ∧ filled equal llen rlen t' i (j + 1).
Proof.
  intros (Hd & H00 & Hc0 & Hr0) Hfill Hi Hj.
  destruct (index2_in_dims t _ _ i (j - 1) Hd) as [lc Hlc]; [lia..|].
  destruct (index2_in_dims t _ _ (i - 1) j Hd) as [rc Hrc]; [lia..|].
  destruct (index2_in_dims t _ _ (i - 1) (j - 1) Hd) as [lrc Hlrc]; [lia..|].
  destruct (set_index2_spec t _ _ i j
              (step_cell (equal (i - 1) (j - 1)) lc rc lrc) Hd)
    as (t' & Hset & Hd' & Hnew & Hframe); [lia..|].
  exists t'. split; [|split].
  - unfold fill_cell. rewrite Hlc, Hrc, Hlrc. simpl.
    unfold step_cell in Hset.
    destruct (equal (i - 1) (j - 1)); [done|].
    destruct (Z.ltb_spec (clength lc) (clength rc)); [done|].
    destruct (Z.geb_spec (clength lc) (clength rc)); [done | lia].
  - split; [done|]. split; [|split].
    + rewrite Hframe by lia. done.
    + intros l Hl. rewrite Hframe by lia. auto.
    + intros r Hr. rewrite Hframe by lia. auto.
  - intros l r Hl Hr Hlt.
    destruct (decide (l = i ∧ r = j)) as [[-> ->]|Hne].
    + exists lc, rc, lrc. rewrite !Hframe by lia. auto.
    + apply (inner_ok_frame t t' i j); [done | lia |].
      apply Hfill; lia.
Qed.

Lemma fill_row_spec t i :
  base_ok llen rlen t → filled equal llen rlen t i 1 → 1 ≤ i ≤ llen →
  ∃ t', for_range (seqZ 1 rlen) (fun ridx table => fill_cell equal i ridx table) t
        = Returned t' ∧ base_ok llen rlen t' ∧ filled equal llen rlen t' (i + 1) 1.
Proof.
  intros Hb Hf Hi.
  destruct (for_range_seqZ (fun j t => base_ok llen rlen t ∧ filled equal llen rlen t i j)
              (fun ridx table => fill_cell equal i ridx table) 1 rlen t)
    as (t' & E & Hb' & Hf'); [lia | done | |].
  - intros j t0 Hj [Hb0 Hf0].
    destruct (fill_cell_spec t0 i j) as (t1 & E1 & ? & ?); [done | done | lia | lia |].
    eauto.
  - exists t'. split; [done|]. split; [done|].
    intros l r Hl Hr Hlt. apply Hf'; lia.
Qed.

Lemma fill_spec t :
  base_ok llen rlen t →
  ∃ t', for_range (seqZ 1 llen) (fun lidx table =>
          for_range (seqZ 1 rlen) (fun ridx table =>
            fill_cell equal lidx ridx table) table) t = Returned t' ∧
        table_ok equal llen rlen t'.
Proof.
  intros Hb.
  destruct (for_range_seqZ (fun i t => base_ok llen rlen t ∧ filled equal llen rlen t i 1)
              (fun lidx table => for_range (seqZ 1 rlen) (fun ridx table =>
                 fill_cell equal lidx ridx table) table) 1 llen t)
    as (t' & E & Hb' & Hf'); [lia | | |].
  - split; [done|]. intros l r Hl Hr Hlt. lia.
  - intros i t0 Hi [Hb0 Hf0].
    destruct (fill_row_spec t0 i) as (t1 & E1 & ? & ?); [done | done | lia |].
    eauto.
  - exists t'. split; [done|].
    destruct Hb' as (Hd & H00 & Hc0 & Hr0).
    split; try done.
    intros l r Hl Hr. apply Hf'; lia.
Qed.
End BuildTable.

Lemma make_slice_nonneg {A} n (zero : A) :
  0 ≤ n → make_slice n zero = Returned (replicate (Z.to_nat n) zero).
Proof. intros Hn. unfold make_slice. destruct (Z.ltb_spec n 0); [lia | done]. Qed.

(** the loop that allocates the rows *)
Lemma alloc_rows_spec (llen rlen : Z) (t : list (list cell)) :
  -1 ≤ rlen →
  Z.of_nat (length t) = llen + 1 →
  ∃ t', for_range (range t) (fun lidx table =>
          row <~ make_slice (rlen + 1) zero_cell ;;
          set_index table lidx row) t = Returned t' ∧
        dims t' (llen + 1) (rlen + 1).
Proof.
  intros Hrlen Hlen. unfold range. rewrite Hlen.
  destruct (for_range_seqZ
              (fun i t => Z.of_nat (length t) = llen + 1 ∧
                 ∀ (k : nat) row, Z.of_nat k < i → t !! k = Some row →
                                  Z.of_nat (length row) = rlen + 1)
              (fun lidx table => row <~ make_slice (rlen + 1) zero_cell ;;
                                 set_index table lidx row) 0 (llen + 1) t)
    as (t' & E & Hl' & Hrows); [lia | | |].
  - split; [done|]. intros; lia.
  - intros i t0 Hi [Hl0 Hr0].
    rewrite make_slice_nonneg by lia. simpl.
    eexists. split; [apply set_index_Returned; split; [lia | reflexivity]|].
    split; [rewrite length_insert; done|].
    intros k row Hk Hlook.
    destruct (decide (k = Z.to_nat i)) as [->|Hne].
    + rewrite list_lookup_insert_eq in Hlook by lia.
      inversion Hlook. rewrite length_replicate. lia.
    + rewrite list_lookup_insert_ne in Hlook by done.
      apply (Hr0 k); [lia | done].
  - exists t'. split; [done|]. split; [done|].
    intros k row Hlook. apply (Hrows k); [|done].
    apply lookup_lt_Some in Hlook. lia.
Qed.

Section InitTable.
Variable equal : Z → Z → bool.
Variables llen rlen : Z.
Hypothesis Hllen : 0 ≤ llen.
Hypothesis Hrlen : 0 ≤ rlen.

(** [table[lidx][0] = cell{Delete, 0}] for every row *)
Lemma col0_spec t :
  dims t (llen + 1) (rlen + 1) →
  ∃ t', for_range (range t) (fun lidx table =>
          set_index2 table lidx 0 (mkCell Delete 0)) t = Returned t' ∧
        dims t' (llen + 1) (rlen + 1) ∧
        ∀ l, 0 ≤ l ≤ llen → index2 t' l 0 = Returned (mkCell Delete 0).
Proof.
  intros Hd. unfold range. rewrite (proj1 Hd).
  destruct (for_range_seqZ
              (fun i t => dims t (llen + 1) (rlen + 1) ∧
                 ∀ l, 0 ≤ l < i → index2 t l 0 = Returned (mkCell Delete 0))
              (fun lidx table => set_index2 table lidx 0 (mkCell Delete 0))
              0 (llen + 1) t)
    as (t' & E & Hd' & Hcol); [lia | | |].
  - split; [done|]. intros; lia.
  - intros i t0 Hi [Hd0 Hc0].
    destruct (set_index2_spec t0 _ _ i 0 (mkCell Delete 0) Hd0)
      as (t1 & E1 & Hd1 & Hnew & Hframe); [lia..|].
    exists t1. split; [done|]. split; [done|].
    intros l Hl. destruct (decide (l = i)) as [->|Hne]; [done|].
    rewrite Hframe by lia. apply Hc0. lia.
  - exists t'. split; [done|]. split; [done|].
    intros l Hl. apply Hcol. lia.
Qed.

(** [table[0][ridx] = cell{Insert, 0}] for every column *)
Lemma row0_spec t (row0 : list cell) :
  dims t (llen + 1) (rlen + 1) →
  Z.of_nat (length row0) = rlen + 1 →
  (∀ l, 0 ≤ l ≤ llen → index2 t l 0 = Returned (mkCell Delete 0)) →
  ∃ t', for_range (range row0) (fun ridx table =>
          set_index2 table 0 ridx (mkCell Insert 0)) t = Returned t' ∧
        dims t' (llen + 1) (rlen + 1) ∧
        (∀ l, 1 ≤ l ≤ llen → index2 t' l 0 = Returned (mkCell Delete 0)) ∧
        (∀ r, 0 ≤ r ≤ rlen → index2 t' 0 r = Returned (mkCell Insert 0)).
Proof.
  intros Hd Hrow0 Hcol. unfold range. rewrite Hrow0.
  destruct (for_range_seqZ
              (fun i t => dims t (llen + 1) (rlen + 1) ∧
                 (∀ l, 1 ≤ l ≤ llen → index2 t l 0 = Returned (mkCell Delete 0)) ∧
                 ∀ r, 0 ≤ r < i → index2 t 0 r = Returned (mkCell Insert 0))
              (fun ridx table => set_index2 table 0 ridx (mkCell Insert 0))
              0 (rlen + 1) t)
    as (t' & E & Hd' & Hc' & Hr'); [lia | | |].
  - split; [done|]. split; [intros; apply Hcol; lia | intros; lia].
  - intros i t0 Hi (Hd0 & Hc0 & Hr0).
    destruct (set_index2_spec t0 _ _ 0 i (mkCell Insert 0) Hd0)
      as (t1 & E1 & Hd1 & Hnew & Hframe); [lia..|].
    exists t1. split; [done|]. split; [done|]. split.
    + intros l Hl. rewrite Hframe by lia. auto.
    + intros r Hr. destruct (decide (r = i)) as [->|Hne]; [done|].
      rewrite Hframe by lia. apply Hr0. lia.
  - exists t'. split; [done|]. split; [done|]. split; [done|].
    intros r Hr. apply Hr'. lia.
Qed.

Lemma build_table_ok :
  ∃ table, build_table llen rlen equal = Returned table ∧
           table_ok equal llen rlen table.
Proof.
  unfold build_table.
  rewrite make_slice_nonneg by lia. simpl.
  destruct (alloc_rows_spec llen rlen (replicate (Z.to_nat (llen + 1)) []))
    as (t1 & E1 & Hd1); [lia | rewrite length_replicate; lia|].
  rewrite E1. simpl.
  destruct (col0_spec t1 Hd1) as (t2 & E2 & Hd2 & Hc2).
  rewrite E2. simpl.
  destruct (index_in_range t2 0) as [row0 Hrow0]; [rewrite (proj1 Hd2); lia|].
  rewrite Hrow0. simpl.
  assert (Hlen0 : Z.of_nat (length row0) = rlen + 1).
  { apply index_Returned in Hrow0. destruct Hrow0 as [_ Hrow0].
    apply (proj2 Hd2 _ _ Hrow0). }
  destruct (row0_spec t2 row0 Hd2 Hlen0 Hc2) as (t3 & E3 & Hd3 & Hc3 & Hr3).
  rewrite E3. simpl.
  destruct (set_index2_spec t3 _ _ 0 0 (mkCell Match 0) Hd3)
    as (t4 & E4 & Hd4 & Hnew & Hframe); [lia..|].
  rewrite E4. simpl.
  apply fill_spec; try lia.
  split; [done|]. split; [done|]. split.
  - intros l Hl. rewrite Hframe by lia. auto.
  - intros r Hr. rewrite Hframe by lia. apply Hr3. lia.
Qed.
End InitTable.




Lemma record_step equal o l r l' r' st LL RR :
  chain l r (collected l r st) LL RR →
  Forall (run_ok equal) (collected l r st) →
  alternating (collected l r st) →
  back_step equal o l r l' r' →
  let st' := record o l r st in
  chain l' r' (collected l' r' st') LL RR ∧
  Forall (run_ok equal) (collected l' r' st') ∧
  alternating (collected l' r' st') ∧
  match_total (collected l' r' st') =
    match_total (collected l r st) + (if decide (o = Match) then 1 else 0).
Proof.
  unfold collected, pending, record. destruct st as [ds ld]. simpl.
  intros (_ & _ & Hch) Hrun Halt Hback.
  apply Forall_cons in Hrun. destruct Hrun as [Hrun Hruns].
  destruct Halt as [Hne Halt].
  destruct (decide (o ≠ dOp ld)) as [Hop|Hop]; simpl.
  - rewrite reverse_snoc. simpl.
    split; [auto|]. split; [|split; [auto|]].
    + apply Forall_cons. split; [|apply Forall_cons; auto].
      unfold run_ok; simpl. destruct o; simpl in Hback; try done.
      * destruct Hback as (-> & -> & He). split; [lia|]. split; [lia|].
        intros i Hi. replace i with 0 by lia. rewrite !Z.add_0_r. done.
      * lia.
      * lia.
    + unfold is_Match, Len; simpl.
      destruct o; simpl in Hback; try done;
        destruct (dOp ld); simpl; try done; lia.
  - apply dec_stable in Hop. subst o.
    split; [auto|]. split; [|split; [auto|]].
    + apply Forall_cons. split; [|done].
      unfold run_ok in *; simpl in *.
      destruct (dOp ld); simpl in Hback; try done.
      * destruct Hback as (-> & -> & He). destruct Hrun as (H1 & H2 & H3).
        split; [lia|]. split; [lia|].
        intros i Hi. destruct (decide (i = 0)) as [->|Hi0].
        -- rewrite !Z.add_0_r. done.
        -- replace (l - 1 + i) with (l + (i - 1)) by lia.
           replace (r - 1 + i) with (r + (i - 1)) by lia.
           apply H3. lia.
      * lia.
      * lia.
    + unfold is_Match, Len; simpl.
      destruct (dOp ld); simpl in Hback; try done; simpl; lia.
Qed.

Section Trace.
Variable equal : Z → Z → bool.
Variables llen rlen : Z.
Variable table : list (list cell).
Hypothesis Hok : table_ok equal llen rlen table.

(** the cell the loop reads next, and what its label says about it *)
Lemma cell_back l r c :
  0 ≤ l ≤ llen → 0 ≤ r ≤ rlen → 0 < l ∨ 0 < r →
  index2 table l r = Returned c →
  ∃ l' r' c',
    back_step equal (op c) l r l' r' ∧
    0 ≤ l' ≤ llen ∧ 0 ≤ r' ≤ rlen ∧
    index2 table l' r' = Returned c' ∧
    clength c = clength c' + (if decide (op c = Match) then 1 else 0).
Proof.
  intros Hl Hr Hpos Hc.
  destruct (decide (l = 0)) as [->|Hl0]; [|destruct (decide (r = 0)) as [->|Hr0]].
  - rewrite (ok_row0 _ _ _ _ Hok r) in Hc by lia. inversion Hc; subst c; simpl.
    destruct (decide (r - 1 = 0)) as [E|E].
    + exists 0, (r - 1), (mkCell Match 0). rewrite E.
      rewrite (ok_origin _ _ _ _ Hok). simpl. repeat split; lia.
    + exists 0, (r - 1), (mkCell Insert 0).
      rewrite (ok_row0 _ _ _ _ Hok) by lia. simpl. repeat split; lia.
  - rewrite (ok_col0 _ _ _ _ Hok l) in Hc by lia. inversion Hc; subst c; simpl.
    destruct (decide (l - 1 = 0)) as [E|E].
    + exists (l - 1), 0, (mkCell Match 0). rewrite E.
      rewrite (ok_origin _ _ _ _ Hok). simpl. repeat split; lia.
    + exists (l - 1), 0, (mkCell Delete 0).
      rewrite (ok_col0 _ _ _ _ Hok) by lia. simpl. repeat split; lia.
  - destruct (ok_inner _ _ _ _ Hok l r) as (lc & rc & lrc & H1 & H2 & H3 & H4);
      [lia..|].
    rewrite H4 in Hc. inversion Hc; subst c. unfold step_cell.
    destruct (equal (l - 1) (r - 1)) eqn:He;
      [|destruct (Z.ltb_spec (clength lc) (clength rc))]; simpl.
    + exists (l - 1), (r - 1), lrc. repeat split; auto; lia.
    + exists (l - 1), r, rc. repeat split; auto; lia.
    + exists l, (r - 1), lc. repeat split; auto; lia.
Qed.

Lemma trace_spec fuel :
  ∀ l r st c,
    l + r ≤ Z.of_nat fuel →
    0 ≤ l ≤ llen → 0 ≤ r ≤ rlen →
    index2 table l r = Returned c →
    chain l r (collected l r st) llen rlen →
    Forall (run_ok equal) (collected l r st) →
    alternating (collected l r st) →
    ∃ st', trace fuel table l r st = Returned st' ∧
           chain 0 0 (collected 0 0 st') llen rlen ∧
           Forall (run_ok equal) (collected 0 0 st') ∧
           alternating (collected 0 0 st') ∧
           match_total (collected 0 0 st') =
             match_total (collected l r st) + clength c.
Proof.
  induction fuel as [|fuel IH]; intros l r st c Hfuel Hl Hr Hc Hch Hrun Halt.
  - assert (l = 0 ∧ r = 0) as [-> ->] by lia.
    exists st. simpl. rewrite (ok_origin _ _ _ _ Hok) in Hc.
    inversion Hc; subst c. simpl. rewrite Z.add_0_r. auto.
  - destruct (decide (0 < l ∨ 0 < r)) as [Hpos|Hzero].
    + assert (E : (l >? 0) || (r >? 0) = true).
      { apply orb_true_iff. destruct Hpos; [left | right]; lia. }
      cbn [trace]. rewrite E, Hc. cbn [bind].
      destruct (cell_back l r c Hl Hr Hpos Hc)
        as (l' & r' & c' & Hback & Hl' & Hr' & Hc' & Hlen).
      destruct (record_step equal (op c) l r l' r' st llen rlen Hch Hrun Halt Hback)
        as (Hch' & Hrun' & Halt' & Htot').
      destruct (IH l' r' (record (op c) l r st) c') as (st' & E' & ? & ? & ? & Htot);
        try done.
      { destruct (op c); simpl in Hback; try done; lia. }
      exists st'. split; [|split; [done|]; split; [done|]; split; [done|];
                           rewrite Htot, Htot', Hlen; lia].
      destruct (op c); simpl in Hback; try done.
      * destruct Hback as (-> & -> & _). done.
      * destruct Hback as (-> & ->). done.
      * destruct Hback as (-> & ->). done.
    + assert (l = 0 ∧ r = 0) as [-> ->] by lia.
      exists st. simpl. rewrite (ok_origin _ _ _ _ Hok) in Hc.
      inversion Hc; subst c. simpl. rewrite Z.add_0_r. auto.
Qed.
End Trace.

(** ** The reversal loop *)

Lemma reverse_diffs_spec ds : reverse_diffs ds = Returned (reverse ds).
Proof.
  unfold reverse_diffs. rewrite make_slice_nonneg by lia. cbn [bind].
  rewrite Nat2Z.id. unfold range.
  set (n := length ds).
  destruct (for_range_seqZ
              (fun i out => out = replicate (n - Z.to_nat i) zero_Diff
                                    ++ reverse (take (Z.to_nat i) ds))
              (fun idx revdiffs => d <~ index ds idx ;;
                 set_index revdiffs (Z.of_nat n - idx - 1) d)
              0 (Z.of_nat n) (replicate n zero_Diff))
    as (out & E & Hout); [lia | | |].
  - simpl. rewrite Nat.sub_0_r, app_nil_r. done.
  - intros i out Hi ->.
    destruct (lookup_lt_is_Some_2 ds (Z.to_nat i)) as [d Hd]; [unfold n in *; lia|].
    assert (Ed : index ds i = Returned d) by (apply index_Returned; split; [lia | done]).
    rewrite Ed. cbn [bind].
    eexists. split.
    + apply set_index_Returned. split; [|reflexivity].
      rewrite length_app, length_replicate. lia.
    + replace (Z.to_nat (i + 1)) with (S (Z.to_nat i)) by lia.
      rewrite (take_S_r _ _ _ Hd), reverse_snoc.
      replace (n - Z.to_nat i)%nat with (S (n - S (Z.to_nat i))) by lia.
      rewrite replicate_S_end, <- app_assoc. simpl.
      replace (Z.to_nat (Z.of_nat n - i - 1))
        with (length (replicate (n - S (Z.to_nat i)) zero_Diff) + 0)%nat
        by (rewrite length_replicate; lia).
      rewrite insert_app_r. done.
  - rewrite E, Hout. f_equal.
    replace (n - Z.to_nat (0 + Z.of_nat n))%nat with 0%nat by lia.
    simpl. rewrite take_ge by (unfold n; lia). done.
Qed.

(** ** The script that [Make] returns *)

Section MakeSpec.
Variable iface : Interface.
Hypothesis Hllen : 0 ≤ LeftLen iface.
Hypothesis Hrlen : 0 ≤ RightLen iface.

Lemma Make_spec :
  ∃ table c ds,
    build_table (LeftLen iface) (RightLen iface) (Equal iface) = Returned table ∧
    table_ok (Equal iface) (LeftLen iface) (RightLen iface) table ∧
    index2 table (LeftLen iface) (RightLen iface) = Returned c ∧
    Make iface = Returned ds ∧
    ds ≠ [] ∧
    chain 0 0 ds (LeftLen iface) (RightLen iface) ∧
    Forall (run_ok (Equal iface)) ds ∧
    alternating ds ∧
    match_total ds = clength c.
Proof.
  destruct (build_table_ok (Equal iface) _ _ Hllen Hrlen) as (table & Eb & Hok).
  destruct (index2_in_dims table _ _ (LeftLen iface) (RightLen iface)
              (ok_dims _ _ _ _ Hok)) as [c Hc]; [lia..|].
  exists table, c.
  set (st0 := mkTrace [] (mkDiff (op c) (LeftLen iface) (LeftLen iface)
                                 (RightLen iface) (RightLen iface))).
  assert (Hop : op c ≠ noOp).
  { destruct (decide (0 < LeftLen iface ∨ 0 < RightLen iface)) as [Hpos|Hz].
    - destruct (cell_back _ _ _ _ Hok (LeftLen iface) (RightLen iface) c
                  ltac:(lia) ltac:(lia) Hpos Hc)
        as (? & ? & ? & Hb & _).
      intros E. rewrite E in Hb. done.
    - assert (LeftLen iface = 0 ∧ RightLen iface = 0) as [E1 E2] by lia.
      rewrite E1, E2, (ok_origin _ _ _ _ Hok) in Hc. inversion Hc. done. }
  destruct (trace_spec _ _ _ _ Hok (Z.to_nat (LeftLen iface + RightLen iface))
              (LeftLen iface) (RightLen iface) st0 c)
    as (st' & Et & Hch & Hrun & Halt & Htot); try lia; try done.
  { unfold collected, pending, st0; simpl.
    apply Forall_cons. split; [|done].
    unfold run_ok; simpl. destruct (op c) eqn:Eop; try congruence;
      repeat split; try lia. }
  exists (collected 0 0 st').
  split; [done|]. split; [done|]. split; [done|].
  split; [|split; [done|]; split; [done|]; split; [done|]; split; [done|]].
  - unfold Make. rewrite Eb. cbn [bind]. rewrite Hc. cbn [bind].
    fold st0. rewrite Et. cbn [bind].
    rewrite reverse_diffs_spec. f_equal.
    unfold record, collected, pending.
    apply Forall_cons in Hrun. destruct Hrun as [Hrun _].
    unfold run_ok, pending in Hrun. simpl in Hrun.
    cbn [dOp Lstart Rstart].
    destruct (decide (noOp ≠ dOp (lastdiff st'))) as [_|Hno].
    + cbn [diffs]. rewrite reverse_snoc. done.
    + apply dec_stable in Hno. rewrite <- Hno in Hrun. done.
  - rewrite Htot. unfold collected, pending, st0, is_Match, Len; simpl.
    destruct (op c); simpl; unfold Len; simpl; lia.
Qed.
End MakeSpec.

(** ** Consequences of the chain structure *)

Lemma run_ok_le equal d :
  run_ok equal d → Lstart d ≤ Lend d ∧ Rstart d ≤ Rend d.
Proof. unfold run_ok. destruct (dOp d); intros H; try done; lia. Qed.

Lemma chain_cover equal ds :
  ∀ l r l' r',
    chain l r ds l' r' → Forall (run_ok equal) ds →
    l ≤ l' ∧ r ≤ r' ∧
    concat (left_range <$> ds) = seqZ l (l' - l) ∧
    concat (right_range <$> ds) = seqZ r (r' - r).
Proof.
  induction ds as [|d ds IH]; intros l r l' r' Hch Hrun.
  - destruct Hch as [-> ->]. rewrite !Z.sub_diag. simpl. repeat split; lia.
  - destruct Hch as (<- & <- & Hch).
    apply Forall_cons in Hrun. destruct Hrun as [Hd Hrun].
    apply run_ok_le in Hd.
    destruct (IH _ _ _ _ Hch Hrun) as (Hl & Hr & El & Er).
    split; [lia|]. split; [lia|].
    rewrite !fmap_cons. cbn [concat]. rewrite El, Er. unfold left_range, right_range.
    replace (l' - Lstart d) with ((Lend d - Lstart d) + (l' - Lend d)) by lia.
    replace (r' - Rstart d) with ((Rend d - Rstart d) + (r' - Rend d)) by lia.
    rewrite !seqZ_app by lia.
    split; do 2 f_equal; lia.
Qed.

Lemma chain_adjacent ds :
  ∀ l r l' r' i d d',
    chain l r ds l' r' → ds !! i = Some d → ds !! S i = Some d' →
    Lend d = Lstart d' ∧ Rend d = Rstart d'.
Proof.
  induction ds as [|d0 ds IH]; intros l r l' r' i d d' Hch Hi HSi; [done|].
  destruct Hch as (_ & _ & Hch).
  destruct i as [|i]; simpl in *.
  - inversion Hi; subst d0. destruct ds as [|d1 ds]; [done|].
    inversion HSi; subst d1. destruct Hch as (? & ? & _). done.
  - eapply IH; eauto.
Qed.

Lemma chain_head l r d ds l' r' :
  chain l r (d :: ds) l' r' → Lstart d = l ∧ Rstart d = r.
Proof. intros (? & ? & _). done. Qed.

Lemma chain_last ds :
  ∀ l r l' r', ds ≠ [] → chain l r ds l' r' →
    ∃ d, last ds = Some d ∧ Lend d = l' ∧ Rend d = r'.
Proof.
  induction ds as [|d ds IH]; intros l r l' r' Hne Hch; [done|].
  destruct Hch as (_ & _ & Hch).
  destruct ds as [|d1 ds].
  - destruct Hch as [<- <-]. exists d. done.
  - destruct (IH _ _ _ _ ltac:(done) Hch) as (d2 & Hlast & ? & ?).
    exists d2. rewrite last_cons_cons. done.
Qed.

Lemma alternating_lookup ds :
  ∀ i d d', alternating ds → ds !! i = Some d → ds !! S i = Some d' →
            dOp d ≠ dOp d'.
Proof.
  induction ds as [|d0 ds IH]; intros i d d' Halt Hi HSi; [done|].
  destruct Halt as [Hne Halt].
  destruct i as [|i]; simpl in *.
  - inversion Hi; subst d0. destruct ds as [|d1 ds]; [done|].
    inversion HSi; subst d1. done.
  - eapply IH; eauto.
Qed.

(** ** Negative lengths *)

Lemma for_range_first_panics {St} (body : Z → St → outcome St) m n s p :
  0 < n → body m s = Panicked p → for_range (seqZ m n) body s = Panicked p.
Proof. intros Hn E. rewrite seqZ_cons by lia. simpl. rewrite E. done. Qed.

Lemma build_table_negative llen rlen equal :
  llen < 0 ∨ rlen < 0 →
  build_table llen rlen equal =
    Panicked (RuntimeError
      (if decide (llen = -1 ∨ (0 ≤ llen ∧ rlen = -1))
       then IndexOutOfRange else MakesliceLenOutOfRange)).
Proof.
  intros Hneg. unfold build_table.
  destruct (decide (llen < -1)) as [Hl|Hl].
  { unfold make_slice. destruct (Z.ltb_spec (llen + 1) 0); [|lia].
    rewrite decide_False by lia. done. }
  destruct (decide (llen = -1)) as [->|Hl1].
  { rewrite decide_True by lia. reflexivity. }
  rewrite make_slice_nonneg by lia. cbn [bind].
  assert (Hlen : Z.of_nat (length (replicate (Z.to_nat (llen + 1)) ([] : list cell)))
                 = llen + 1) by (rewrite length_replicate; lia).
  destruct (decide (rlen < -1)) as [Hr|Hr].
  { rewrite decide_False by lia.
    unfold range. rewrite Hlen.
    erewrite for_range_first_panics; [done | lia |].
    unfold make_slice. destruct (Z.ltb_spec (rlen + 1) 0); [done | lia]. }
  assert (rlen = -1) as -> by lia.
  rewrite decide_True by lia.
  destruct (alloc_rows_spec llen (-1) _ ltac:(lia) Hlen) as (t1 & E1 & Hd1).
  rewrite E1. cbn [bind].
  unfold range. rewrite (proj1 Hd1).
  erewrite for_range_first_panics; [done | lia |].
  destruct (index_in_range t1 0) as [row Hrow]; [rewrite (proj1 Hd1); lia|].
  unfold set_index2. rewrite Hrow. cbn [bind].
  apply index_Returned in Hrow. destruct Hrow as [_ Hrow].
  apply (proj2 Hd1) in Hrow.
  unfold set_index. destruct (Z.leb_spec (Z.of_nat (length row)) 0); [|lia].
  done.
Qed.

(** With a left length of [-1] the outer [make] succeeds and gives a table
    with no row; the panic comes from reading [table[0]]. *)
Example Make_left_length_minus_one :
  make_slice (-1 + 1) ([] : list cell) = Returned [] ∧
  Make (mkInterface (-1) 0 (fun _ _ => true)) = Panicked (RuntimeError IndexOutOfRange).
Proof. split; reflexivity. Qed.

(** ** [Make] always ends *)

Lemma Make_terminates (iface : Interface) : Make iface ≠ Unfinished.
Proof.
  destruct (decide (0 ≤ LeftLen iface ∧ 0 ≤ RightLen iface)) as [[Hl Hr]|Hneg].
  - destruct (Make_spec iface Hl Hr) as (? & ? & ? & _ & _ & _ & E & _).
    rewrite E. done.
  - unfold Make. rewrite build_table_negative by lia. done.
Qed.

(** ** The package's tests *)

Example TestMake_a_empty :
  Make (testcase "a" "") = Returned [mkDiff Delete 0 1 0 0].
Proof. vm_compute. reflexivity. Qed.

Example TestMake_empty_a :
  Make (testcase "" "a") = Returned [mkDiff Insert 0 0 0 1].
Proof. vm_compute. reflexivity. Qed.

Example TestMake_aaa_bbb :
  Make (testcase "aaa" "bbb") =
    Returned [mkDiff Delete 0 3 0 0; mkDiff Insert 3 3 0 3].
Proof. vm_compute. reflexivity. Qed.

Example TestMake_aBce_acDe :
  Make (testcase "aBce" "acDe") =
    Returned [mkDiff Match 0 1 0 1; mkDiff Delete 1 2 1 1; mkDiff Match 2 3 1 2;
              mkDiff Insert 3 3 2 3; mkDiff Match 3 4 3 4].
Proof. vm_compute. reflexivity. Qed.

Example TestMake_aaabbbccceee :
  Make (testcase "aaabbbccceee" "aaacccDDDeee") =
    Returned [mkDiff Match 0 3 0 3; mkDiff Delete 3 6 3 3; mkDiff Match 6 9 3 6;
              mkDiff Insert 9 9 6 9; mkDiff Match 9 12 9 12].
Proof. vm_compute. reflexivity. Qed.

Example TestMake_bbbCCCddd :
  Make (testcase "bbbCCCddd" "CCCeee") =
    Returned [mkDiff Delete 0 3 0 0; mkDiff Match 3 6 0 3; mkDiff Delete 6 9 3 3;
              mkDiff Insert 9 9 3 6].
Proof. vm_compute. reflexivity. Qed.

Example TestMake_AbbbbbbbCdddddddE :
  Make (testcase "AbbbbbbbCdddddddE" "bbbbbbbddddddd") =
    Returned [mkDiff Delete 0 1 0 0; mkDiff Match 1 8 0 7; mkDiff Delete 8 9 7 7;
              mkDiff Match 9 16 7 14; mkDiff Delete 16 17 14 14].
Proof. vm_compute. reflexivity. Qed.

Example TestCompact_abc :
  Make_then_Compact (testcase "abc" "abc") 2 = Returned [].
Proof. vm_compute. reflexivity. Qed.

Example Compact_Make_empty :
  Make_then_Compact (testcase "" "") 0 = Returned [].
Proof. vm_compute. reflexivity. Qed.

Example TestCompact_abcdef :
  Make_then_Compact (testcase "abcdef" "abcdef") 2 = Returned [].
Proof. vm_compute. reflexivity. Qed.

Example TestCompact_dddmmmm :
  Make_then_Compact (testcase "dddmmmm" "mmmm") 2 =
    Returned [mkDiff Delete 0 3 0 0; mkDiff Match 3 5 0 2].
Proof. vm_compute. reflexivity. Qed.

Example TestCompact_mmmm :
  Make_then_Compact (testcase "mmmm" "mmmmddd") 2 =
    Returned [mkDiff Match 2 4 2 4; mkDiff Insert 4 4 4 7].
Proof. vm_compute. reflexivity. Qed.

Example TestCompact_aBaCa :
  Make_then_Compact (testcase "aBaCa" "aCaBa") 2 =
    Returned [mkDiff Delete 0 2 0 0; mkDiff Match 2 4 0 2;
              mkDiff Insert 4 4 2 4; mkDiff Match 4 5 4 5].
Proof. vm_compute. reflexivity. Qed.

Example TestCompact_axxxxxxx :
  Make_then_Compact (testcase "axxxxxxx" "xxxxxxx") 2 =
    Returned [mkDiff Delete 0 1 0 0; mkDiff Match 1 3 0 2].
Proof. vm_compute. reflexivity. Qed.

Example TestCompact_xxxxxxxb :
  Make_then_Compact (testcase "xxxxxxx" "xxxxxxxb") 2 =
    Returned [mkDiff Match 5 7 5 7; mkDiff Insert 7 7 7 8].
Proof. vm_compute. reflexivity. Qed.

Example TestCompact_lllllllaaarrrrrrr :
  Make_then_Compact (testcase "lllllllaaarrrrrrr" "lllllllrrrrrrr") 2 =
    Returned [mkDiff Match 5 7 5 7; mkDiff Delete 7 10 7 7; mkDiff Match 10 12 7 9].
Proof. vm_compute. reflexivity. Qed.

Example TestCompact_abbbbbbbcddddddde :
  Make_then_Compact (testcase "abbbbbbbcddddddde" "bbbbbbbddddddd") 2 =
    Returned [mkDiff Delete 0 1 0 0; mkDiff Match 1 3 0 2; mkDiff Match 6 8 5 7;
              mkDiff Delete 8 9 7 7; mkDiff Match 9 11 7 9;
              mkDiff Match 14 16 12 14; mkDiff Delete 16 17 14 14].
Proof. vm_compute. reflexivity. Qed.

(** ** The tie-break of the fill loop *)

Lemma fill_cell_written equal table nl nr lidx ridx :
  dims table nl nr → 1 ≤ lidx < nl → 1 ≤ ridx < nr →
  ∃ lcell rcell lrcell table',
    index2 table lidx (ridx - 1) = Returned lcell ∧
    index2 table (lidx - 1) ridx = Returned rcell ∧
    index2 table (lidx - 1) (ridx - 1) = Returned lrcell ∧
    fill_cell equal lidx ridx table = Returned table' ∧
    index2 table' lidx ridx =
      Returned (step_cell (equal (lidx - 1) (ridx - 1)) lcell rcell lrcell).
Proof.
  intros Hd Hl Hr.
  destruct (index2_in_dims table _ _ lidx (ridx - 1) Hd) as [lc Hlc]; [lia..|].
  destruct (index2_in_dims table _ _ (lidx - 1) ridx Hd) as [rc Hrc]; [lia..|].
  destruct (index2_in_dims table _ _ (lidx - 1) (ridx - 1) Hd) as [lrc Hlrc]; [lia..|].
  destruct (set_index2_spec table _ _ lidx ridx
              (step_cell (equal (lidx - 1) (ridx - 1)) lc rc lrc) Hd)
    as (t' & Hset & _ & Hnew & _); [lia..|].
  exists lc, rc, lrc, t'. repeat (split; [done|]). split; [|done].
  unfold fill_cell. rewrite Hlc, Hrc, Hlrc. cbn [bind].
  unfold step_cell in Hset.
  destruct (equal (lidx - 1) (ridx - 1)); [done|].
  destruct (Z.ltb_spec (clength lc) (clength rc)); [done|].
  destruct (Z.geb_spec (clength lc) (clength rc)); [done | lia].
Qed.

(** ** A sequence against itself *)

Section Diagonal.
Variable equal : Z → Z → bool.
Variable n : Z.
Variable table : list (list cell).
Hypothesis Hok : table_ok equal n n table.
Hypothesis Hdiag : ∀ i, 0 ≤ i < n → equal i i = true.

Lemma diag_cell i :
  0 ≤ i ≤ n → ∃ c, index2 table i i = Returned c ∧ op c = Match.
Proof.
  intros Hi. destruct (decide (i = 0)) as [->|Hi0].
  - eexists. split; [apply (ok_origin _ _ _ _ Hok) | done].
  - destruct (ok_inner _ _ _ _ Hok i i) as (lc & rc & lrc & _ & _ & _ & H4); [lia..|].
    rewrite Hdiag in H4 by lia. eexists. split; [exact H4 | done].
Qed.

(** on the diagonal the loop never leaves the first pending record *)
Lemma diag_trace fuel :
  ∀ i a b, 0 ≤ i ≤ n → i ≤ Z.of_nat fuel →
    ∃ a' b', trace fuel table i i (mkTrace [] (mkDiff Match a n b n))
             = Returned (mkTrace [] (mkDiff Match a' n b' n)).
Proof.
  induction fuel as [|fuel IH]; intros i a b Hi Hfuel.
  - assert (i = 0) as -> by lia. exists a, b. done.
  - destruct (decide (i = 0)) as [->|Hi0]; [exists a, b; done|].
    destruct (diag_cell i Hi) as (c & Hc & Hop).
    cbn [trace].
    replace ((i >? 0) || (i >? 0)) with true
      by (symmetry; apply orb_true_iff; left; lia).
    rewrite Hc. cbn [bind]. rewrite Hop.
    unfold record. cbn [lastdiff dOp diffs Lend Rend].
    rewrite decide_False by (intros ?; done).
    apply IH; lia.
Qed.
End Diagonal.

Lemma Make_identical (iface : Interface) :
  0 ≤ LeftLen iface → RightLen iface = LeftLen iface →
  (∀ i, 0 ≤ i < LeftLen iface → Equal iface i i = true) →
  Make iface = Returned [mkDiff Match 0 (LeftLen iface) 0 (LeftLen iface)].
Proof.
  destruct iface as [n rlen equal]. simpl. intros Hn -> Hdiag.
  destruct (build_table_ok equal n n Hn Hn) as (table & Eb & Hok).
  destruct (diag_cell equal n table Hok Hdiag n ltac:(lia)) as (c & Hc & Hop).
  destruct (diag_trace equal n table Hok Hdiag (Z.to_nat (n + n)) n n n
              ltac:(lia) ltac:(lia)) as (a' & b' & Et).
  unfold Make. cbn [LeftLen RightLen Equal].
  rewrite Eb. cbn [bind]. rewrite Hc. cbn [bind]. rewrite Hop, Et. cbn [bind].
  rewrite reverse_diffs_spec. reflexivity.
Qed.

(** ** [Compact] on three records or more *)

Lemma is_Match_true d : is_Match d = true ↔ dOp d = Match.
Proof. unfold is_Match. apply bool_decide_eq_true. Qed.

Lemma compact_middle_interior k out d :
  compact_middle k out d = out ++ interior_records k d.
Proof.
  unfold compact_middle, interior_records, is_Match.
  destruct (decide (dOp d = Match)) as [Hm|Hm].
  - rewrite bool_decide_eq_true_2 by done. simpl.
    destruct (Z.gtb_spec (Len d) (k * 2)).
    + rewrite decide_True by (split; [done | lia]). done.
    + rewrite decide_False by (intros [_ ?]; lia). done.
  - rewrite bool_decide_eq_false_2 by done. simpl.
    rewrite decide_False by (intros [? _]; done). done.
Qed.

Lemma foldl_compact_middle k middle :
  ∀ out, foldl (compact_middle k) out middle = out ++ (middle ≫= interior_records k).
Proof.
  induction middle as [|d middle IH]; intros out; cbn [foldl].
  - simpl. rewrite app_nil_r. done.
  - rewrite IH, compact_middle_interior, bind_cons, app_assoc. done.
Qed.

Lemma Compact_long first middle last k :
  middle ≠ [] →
  Compact (first :: middle ++ [last]) k =
    trim_first k first :: (middle ≫= interior_records k) ++ [trim_last k last].
Proof.
  intros Hne. destruct middle as [|m0 ms]; [done|].
  unfold Compact. rewrite <- !app_comm_cons.
  destruct (ms ++ [last]) as [|x xs] eqn:E; [by destruct ms|].
  rewrite <- E.
  rewrite (app_comm_cons ms [last] m0), removelast_last, last_last.
  rewrite foldl_compact_middle. done.
Qed.

Lemma snoc_decompose {A} (x y : A) (l : list A) :
  ∃ middle last, x :: y :: l = middle ++ [last] ∧ middle ≠ [].
Proof.
  destruct (exists_last (l := y :: l) ltac:(done)) as (l' & a & E).
  exists (x :: l'), a. rewrite E. done.
Qed.

Lemma alternating_not_both_Match d0 d1 :
  alternating [d0; d1] → is_Match d0 = true → is_Match d1 = false.
Proof.
  intros [Hne _] H0. apply is_Match_true in H0.
  unfold is_Match. apply bool_decide_eq_false_2. congruence.
Qed.

(** a script of two records, no two neighbours alike, is compacted end by end *)
Lemma Compact_two d0 d1 k :
  alternating [d0; d1] →
  Compact [d0; d1] k = [trim_first k d0; trim_last k d1].
Proof.
  intros Halt. unfold Compact, trim_first, trim_last.
  destruct (is_Match d0 && (Len d0 >? k)) eqn:E0.
  - apply andb_true_iff in E0. destruct E0 as [E0 _].
    rewrite (alternating_not_both_Match d0 d1 Halt E0). done.
  - destruct (is_Match d1 && (Len d1 >? k)); done.
Qed.

(** the four shapes of [Compact]'s input *)
Lemma Compact_cases (ds : list Diff) :
  ds = [] ∨ (∃ d, ds = [d]) ∨ (∃ d0 d1, ds = [d0; d1]) ∨
  (∃ first middle last, middle ≠ [] ∧ ds = first :: middle ++ [last]).
Proof.
  destruct ds as [|d0 [|d1 [|d2 tl]]]; eauto 6.
  right. right. right.
  destruct (snoc_decompose d1 d2 tl) as (middle & last & E & Hne).
  exists d0, middle, last. rewrite E. done.
Qed.

(** ** Compacting twice *)


Lemma Len_prefix k d : Len (prefix k d) = k.
Proof. unfold Len, prefix. simpl. lia. Qed.

Lemma Len_suffix k d : Len (suffix k d) = k.
Proof. unfold Len, suffix. simpl. lia. Qed.









(** ** Applying the script of [Make] *)

Lemma slice_app {A} (s : list A) a b c :
  0 ≤ a → a ≤ b → b ≤ c → slice s a b ++ slice s b c = slice s a c.
Proof.
  intros Ha Hab Hbc. unfold slice.
  replace (drop (Z.to_nat b) s)
    with (drop (Z.to_nat (b - a)) (drop (Z.to_nat a) s))
    by (rewrite drop_drop; f_equal; lia).
  rewrite take_take_drop. f_equal. lia.
Qed.

Lemma slice_nil {A} (s : list A) a : slice s a a = [].
Proof. unfold slice. rewrite Z.sub_diag. done. Qed.

Lemma slice_all {A} (s : list A) : slice s 0 (Z.of_nat (length s)) = s.
Proof. unfold slice. simpl. rewrite drop_0. apply take_ge. lia. Qed.

Lemma slice_lookup {A} (s : list A) lo hi i :
  0 ≤ lo →
  slice s lo hi !! i =
    if decide (Z.of_nat i < hi - lo) then s !! Z.to_nat (lo + Z.of_nat i) else None.
Proof.
  intros Hlo. unfold slice. rewrite lookup_take, lookup_drop.
  destruct (decide (i < Z.to_nat (hi - lo))%nat);
    destruct (decide (Z.of_nat i < hi - lo)); try lia; [|done].
  f_equal. lia.
Qed.

Lemma slice_Match {A} equal (left right : list A) d :
  respects equal left right →
  dOp d = Match → run_ok equal d →
  0 ≤ Lstart d → 0 ≤ Rstart d →
  Lend d ≤ Z.of_nat (length left) → Rend d ≤ Z.of_nat (length right) →
  slice left (Lstart d) (Lend d) = slice right (Rstart d) (Rend d).
Proof.
  intros Hresp Hm Hrun Hl Hr Hl' Hr'. unfold run_ok in Hrun. rewrite Hm in Hrun.
  destruct Hrun as (Hle & Hbal & Heq).
  apply list_eq. intros i. rewrite !slice_lookup by done.
  rewrite <- Hbal.
  destruct (decide (Z.of_nat i < Lend d - Lstart d)) as [Hi|Hi]; [|done].
  destruct (lookup_lt_is_Some_2 left (Z.to_nat (Lstart d + Z.of_nat i)))
    as [x Hx]; [lia|].
  destruct (lookup_lt_is_Some_2 right (Z.to_nat (Rstart d + Z.of_nat i)))
    as [y Hy]; [lia|].
  rewrite Hx, Hy. f_equal.
  apply (Hresp (Lstart d + Z.of_nat i) (Rstart d + Z.of_nat i)); try done; try lia.
  apply Heq. lia.
Qed.

Lemma apply_chain {A} equal (left right : list A) ds :
  ∀ l r l' r',
    chain l r ds l' r' → Forall (run_ok equal) ds →
    0 ≤ l → 0 ≤ r →
    l' ≤ Z.of_nat (length left) → r' ≤ Z.of_nat (length right) →
    apply_script_right right ds = slice right r r' ∧
    (respects equal left right → apply_script left right ds = slice right r r').
Proof.
  unfold apply_script, apply_script_right.
  induction ds as [|d ds IH]; intros l r l' r' Hch Hrun Hl Hr Hl' Hr'.
  - destruct Hch as [-> ->]. rewrite slice_nil. done.
  - destruct Hch as (<- & <- & Hch).
    apply Forall_cons in Hrun. destruct Hrun as [Hd Hrun].
    pose proof (run_ok_le _ _ Hd) as [Hdl Hdr].
    destruct (chain_cover _ _ _ _ _ _ Hch Hrun) as (Hcl & Hcr & _).
    destruct (IH _ _ _ _ Hch Hrun) as [IH1 IH2]; try lia.
    rewrite !bind_cons, IH1.
    assert (Hright : apply_Diff_right right d ++ slice right (Rend d) r'
                     = slice right (Rstart d) r').
    { unfold apply_Diff_right. pose proof Hd as Hd'. unfold run_ok in Hd'.
      destruct (dOp d); try done.
      - apply slice_app; lia.
      - destruct Hd' as [_ ->]. done.
      - apply slice_app; lia. }
    split; [done|].
    intros Hresp. rewrite (IH2 Hresp), <- Hright. f_equal.
    unfold apply_Diff, apply_Diff_right.
    destruct (dOp d) eqn:Hop; try done.
    apply (slice_Match equal); try done; lia.
Qed.

(** ** Common subsequences and the table *)

Lemma cs_weaken equal ps :
  ∀ a b hl hr a' b' hl' hr',
    common_subseq equal a b hl hr ps →
    a' ≤ a → b' ≤ b → hl ≤ hl' → hr ≤ hr' →
    common_subseq equal a' b' hl' hr' ps.
Proof.
  induction ps as [|[i j] ps IH]; intros a b hl hr a' b' hl' hr' H Ha Hb Hl Hr; [done|].
  destruct H as (Hi & Hj & He & H). simpl.
  split; [lia|]. split; [lia|]. split; [done|].
  apply (IH _ _ _ _ _ _ _ _ H); lia.
Qed.

Lemma cs_snoc equal ps :
  ∀ a b hl hr i j,
    common_subseq equal a b hl hr (ps ++ [(i, j)]) ↔
    common_subseq equal a b i j ps ∧ a ≤ i < hl ∧ b ≤ j < hr ∧ equal i j = true.
Proof.
  induction ps as [|[i0 j0] ps IH]; intros a b hl hr i j; simpl.
  - split.
    + intros (? & ? & ? & _). done.
    + intros (_ & ? & ? & ?). done.
  - rewrite IH. split.
    + intros (? & ? & ? & ? & ? & ? & ?). repeat split; try done; lia.
    + intros ((? & ? & ? & ?) & ? & ? & ?). repeat split; try done; lia.
Qed.

Lemma cs_app equal ps :
  ∀ qs a b ml mr hl hr,
    common_subseq equal a b ml mr ps → common_subseq equal ml mr hl hr qs →
    a ≤ ml → b ≤ mr → ml ≤ hl → mr ≤ hr →
    common_subseq equal a b hl hr (ps ++ qs).
Proof.
  induction ps as [|[i j] ps IH]; intros qs a b ml mr hl hr Hp Hq Ha Hb Hl Hr.
  - simpl. apply (cs_weaken _ _ _ _ _ _ _ _ _ _ Hq); lia.
  - destruct Hp as (Hi & Hj & He & Hp). simpl.
    split; [lia|]. split; [lia|]. split; [done|].
    apply (IH qs _ _ ml mr); try done; lia.
Qed.

Lemma cs_elem equal ps :
  ∀ a b hl hr i j,
    common_subseq equal a b hl hr ps → (i, j) ∈ ps → equal i j = true.
Proof.
  induction ps as [|[i0 j0] ps IH]; intros a b hl hr i j H Hin.
  - by apply elem_of_nil in Hin.
  - destruct H as (_ & _ & He & H).
    apply elem_of_cons in Hin. destruct Hin as [Heq|Hin].
    + inversion Heq; subst. done.
    + eapply IH; eauto.
Qed.

(** a run of equal pairs along a diagonal *)
Lemma cs_diag equal n :
  ∀ l r,
    (∀ i, 0 ≤ i < Z.of_nat n → equal (l + i) (r + i) = true) →
    common_subseq equal l r (l + Z.of_nat n) (r + Z.of_nat n)
      (zip (seqZ l (Z.of_nat n)) (seqZ r (Z.of_nat n))) ∧
    length (zip (seqZ l (Z.of_nat n)) (seqZ r (Z.of_nat n))) = n.
Proof.
  induction n as [|n IH]; intros l r He; [done|].
  rewrite !(seqZ_cons _ (Z.of_nat (S n))) by lia.
  replace (Z.pred (Z.of_nat (S n))) with (Z.of_nat n) by lia.
  destruct (IH (Z.succ l) (Z.succ r)) as [IH1 IH2].
  { intros i Hi. replace (Z.succ l + i) with (l + (i + 1)) by lia.
    replace (Z.succ r + i) with (r + (i + 1)) by lia. apply He. lia. }
  simpl. split; [|rewrite IH2; done].
  split; [lia|]. split; [lia|]. split.
  - specialize (He 0). rewrite !Z.add_0_r in He. apply He. lia.
  - apply (cs_weaken _ _ _ _ _ _ _ _ _ _ IH1); lia.
Qed.

Lemma matched_pairs_of_spec equal d :
  run_ok equal d →
  common_subseq equal (Lstart d) (Rstart d) (Lend d) (Rend d) (matched_pairs_of d) ∧
  Z.of_nat (length (matched_pairs_of d)) = (if is_Match d then Len d else 0).
Proof.
  intros Hrun. unfold matched_pairs_of, is_Match, Len, run_ok in *.
  destruct (dOp d) eqn:Hop; try done.
  destruct Hrun as (Hle & Hbal & He).
  unfold left_range, right_range. rewrite <- Hbal.
  destruct (cs_diag equal (Z.to_nat (Lend d - Lstart d)) (Lstart d) (Rstart d))
    as [H1 H2].
  { intros i Hi. apply He. lia. }
  rewrite Z2Nat.id in * by lia.
  replace (Lstart d + (Lend d - Lstart d)) with (Lend d) in H1 by lia.
  replace (Rstart d + (Lend d - Lstart d)) with (Rend d) in H1 by lia.
  split; [done|]. rewrite H2. simpl. lia.
Qed.

Lemma chain_matched equal ds :
  ∀ l r l' r',
    chain l r ds l' r' → Forall (run_ok equal) ds →
    common_subseq equal l r l' r' (matched_pairs ds) ∧
    Z.of_nat (length (matched_pairs ds)) = match_total ds.
Proof.
  unfold matched_pairs.
  induction ds as [|d ds IH]; intros l r l' r' Hch Hrun; [done|].
  destruct Hch as (<- & <- & Hch).
  apply Forall_cons in Hrun. destruct Hrun as [Hd Hrun].
  pose proof (run_ok_le _ _ Hd) as [Hdl Hdr].
  destruct (chain_cover _ _ _ _ _ _ Hch Hrun) as (Hcl & Hcr & _).
  destruct (IH _ _ _ _ Hch Hrun) as [IH1 IH2].
  destruct (matched_pairs_of_spec equal d Hd) as [Hd1 Hd2].
  rewrite bind_cons, length_app. cbn [match_total].
  split; [|lia].
  apply (cs_app _ _ _ _ _ (Lend d) (Rend d)); try done.
Qed.

Section LcsBound.
Variable equal : Z → Z → bool.
Variables llen rlen : Z.
Variable table : list (list cell).
Hypothesis Hok : table_ok equal llen rlen table.

(** no common subsequence of the first [l] left and [r] right elements is
    longer than the length recorded in [table[l][r]] *)
Lemma lcs_upper n :
  ∀ l r c ps,
    l + r ≤ Z.of_nat n → 0 ≤ l ≤ llen → 0 ≤ r ≤ rlen →
    index2 table l r = Returned c →
    common_subseq equal 0 0 l r ps →
    Z.of_nat (length ps) ≤ clength c.
Proof.
  induction n as [|n IH]; intros l r c ps Hn Hl Hr Hc Hps.
  - assert (l = 0 ∧ r = 0) as [-> ->] by lia.
    rewrite (ok_origin _ _ _ _ Hok) in Hc. inversion Hc; subst c.
    destruct ps as [|[i j] ps]; [done|]. simpl in Hps. lia.
  - destruct (decide (l = 0)) as [->|Hl0]; [|destruct (decide (r = 0)) as [->|Hr0]].
    + destruct ps as [|[i j] ps]; [|simpl in Hps; lia].
      destruct (decide (r = 0)) as [->|Hr0].
      * rewrite (ok_origin _ _ _ _ Hok) in Hc. inversion Hc. done.
      * rewrite (ok_row0 _ _ _ _ Hok) in Hc by lia. inversion Hc. done.
    + destruct ps as [|[i j] ps]; [|simpl in Hps; lia].
      rewrite (ok_col0 _ _ _ _ Hok) in Hc by lia. inversion Hc. done.
    + destruct (ok_inner _ _ _ _ Hok l r) as (lc & rc & lrc & H1 & H2 & H3 & H4);
        [lia..|].
      rewrite H4 in Hc. inversion Hc; subst c. clear Hc.
      pose proof (IH l (r - 1) lc [] ltac:(lia) ltac:(lia) ltac:(lia) H1 I) as Hlc0.
      pose proof (IH (l - 1) r rc [] ltac:(lia) ltac:(lia) ltac:(lia) H2 I) as Hrc0.
      pose proof (IH (l - 1) (r - 1) lrc [] ltac:(lia) ltac:(lia) ltac:(lia) H3 I) as Hlrc0.
      simpl in Hlc0, Hrc0, Hlrc0.
      destruct (decide (ps = [])) as [->|Hne].
      { unfold step_cell. destruct (equal (l - 1) (r - 1));
          [|destruct (Z.ltb_spec (clength lc) (clength rc))]; simpl; lia. }
      destruct (exists_last Hne) as (ps' & [i j] & ->).
      apply cs_snoc in Hps. destruct Hps as (Hps' & Hi & Hj & He).
      rewrite length_app. simpl.
      unfold step_cell. destruct (equal (l - 1) (r - 1)) eqn:Hlr.
      * simpl.
        assert (Hw : common_subseq equal 0 0 (l - 1) (r - 1) ps')
          by (apply (cs_weaken _ _ _ _ _ _ _ _ _ _ Hps'); lia).
        pose proof (IH (l - 1) (r - 1) lrc ps' ltac:(lia) ltac:(lia) ltac:(lia) H3 Hw). lia.
      * assert (i < l - 1 ∨ j < r - 1) as [Hi'|Hj'].
        { destruct (decide (i = l - 1)) as [->|?]; [|lia].
          destruct (decide (j = r - 1)) as [->|?]; [|lia]. congruence. }
        -- assert (Hw : common_subseq equal 0 0 (l - 1) r (ps' ++ [(i, j)]))
             by (apply cs_snoc; repeat split; try done; lia).
           pose proof (IH (l - 1) r rc _ ltac:(lia) ltac:(lia) ltac:(lia) H2 Hw) as Hb.
           rewrite length_app in Hb. simpl in Hb.
           destruct (Z.ltb_spec (clength lc) (clength rc)); simpl; lia.
        -- assert (Hw : common_subseq equal 0 0 l (r - 1) (ps' ++ [(i, j)]))
             by (apply cs_snoc; repeat split; try done; lia).
           pose proof (IH l (r - 1) lc _ ltac:(lia) ltac:(lia) ltac:(lia) H1 Hw) as Hb.
           rewrite length_app in Hb. simpl in Hb.
           destruct (Z.ltb_spec (clength lc) (clength rc)); simpl; lia.
Qed.

(** the lengths stored in the table stay within the table's own size *)
Lemma cell_length_bounds n :
  ∀ l r c,
    l + r ≤ Z.of_nat n → 0 ≤ l ≤ llen → 0 ≤ r ≤ rlen →
    index2 table l r = Returned c →
    0 ≤ clength c ≤ Z.min l r.
Proof.
  induction n as [|n IH]; intros l r c Hn Hl Hr Hc.
  - assert (l = 0 ∧ r = 0) as [-> ->] by lia.
    rewrite (ok_origin _ _ _ _ Hok) in Hc. inversion Hc. simpl. lia.
  - destruct (decide (l = 0)) as [->|Hl0]; [|destruct (decide (r = 0)) as [->|Hr0]].
    + destruct (decide (r = 0)) as [->|Hr0].
      * rewrite (ok_origin _ _ _ _ Hok) in Hc. inversion Hc. simpl. lia.
      * rewrite (ok_row0 _ _ _ _ Hok) in Hc by lia. inversion Hc. simpl. lia.
    + rewrite (ok_col0 _ _ _ _ Hok) in Hc by lia. inversion Hc. simpl. lia.
    + destruct (ok_inner _ _ _ _ Hok l r) as (lc & rc & lrc & H1 & H2 & H3 & H4);
        [lia..|].
      rewrite H4 in Hc. inversion Hc; subst c. clear Hc.
      pose proof (IH l (r - 1) lc ltac:(lia) ltac:(lia) ltac:(lia) H1).
      pose proof (IH (l - 1) r rc ltac:(lia) ltac:(lia) ltac:(lia) H2).
      pose proof (IH (l - 1) (r - 1) lrc ltac:(lia) ltac:(lia) ltac:(lia) H3).
      unfold step_cell. destruct (equal (l - 1) (r - 1));
        [|destruct (Z.ltb_spec (clength lc) (clength rc))]; simpl; lia.
Qed.
End LcsBound.

(** ** Loops with bodies that agree *)

Lemma bind_ext {A B} (m : outcome A) (k k' : A → outcome B) :
  (∀ a, k a = k' a) → bind m k = bind m k'.
Proof. intros H. destruct m; simpl; auto. Qed.

Lemma for_range_ext {St} (idxs : list Z) (body body' : Z → St → outcome St) :
  (∀ i s, i ∈ idxs → body i s = body' i s) →
  ∀ s, for_range idxs body s = for_range idxs body' s.
Proof.
  induction idxs as [|i idxs IH]; intros H s; [done|].
  simpl. rewrite (H i s) by apply list_elem_of_here.
  apply bind_ext. intros s'. apply IH.
  intros j s'' Hj. apply H. by apply list_elem_of_further.
Qed.

Lemma build_table_ext llen rlen equal equal' :
  (∀ l r, 0 ≤ l < llen → 0 ≤ r < rlen → equal l r = equal' l r) →
  build_table llen rlen equal = build_table llen rlen equal'.
Proof.
  intros H. unfold build_table.
  do 6 (apply bind_ext; intros ?).
  apply for_range_ext. intros lidx t Hl. apply elem_of_seqZ in Hl.
  apply for_range_ext. intros ridx t' Hr. apply elem_of_seqZ in Hr.
  unfold fill_cell. do 3 (apply bind_ext; intros ?).
  rewrite H by lia. done.
Qed.

(** ** [Compact] on 64-bit integers *)

(** Inside the range of [int] nothing wraps. *)
Lemma wrap_small z : MinInt64 ≤ z ≤ MaxInt64 → wrap z = z.
Proof.
  unfold wrap, MinInt64, MaxInt64. intros H.
  rewrite Z.mod_small by lia. lia.
Qed.

Lemma Len64_exact d : fits d → Len64 d = Len d.
Proof.
  unfold fits, Len64, Len, MaxInt64. intros H.
  destruct (dOp d); try done; apply wrap_small; unfold MinInt64, MaxInt64; lia.
Qed.

Lemma prefix64_exact k d :
  fits d → dOp d = Match → 0 ≤ k ≤ Len d → prefix64 k d = prefix k d.
Proof.
  unfold fits, Len, prefix64, prefix, MaxInt64. intros H Hm Hk. rewrite Hm in Hk.
  destruct H as (? & ? & ? & ? & ? & ? & Hb). specialize (Hb Hm).
  rewrite !wrap_small by (unfold MinInt64, MaxInt64; lia). done.
Qed.

Lemma suffix64_exact k d :
  fits d → dOp d = Match → 0 ≤ k ≤ Len d → suffix64 k d = suffix k d.
Proof.
  unfold fits, Len, suffix64, suffix, MaxInt64. intros H Hm Hk. rewrite Hm in Hk.
  destruct H as (? & ? & ? & ? & ? & ? & Hb). specialize (Hb Hm).
  rewrite !wrap_small by (unfold MinInt64, MaxInt64; lia). done.
Qed.

Lemma trim_first64_exact k d :
  fits d → 0 ≤ k → trim_first64 k d = trim_first k d.
Proof.
  intros Hf Hk. unfold trim_first64, trim_first. rewrite (Len64_exact d Hf).
  destruct (is_Match d) eqn:Hm; [|done]. apply is_Match_true in Hm.
  destruct (Z.gtb_spec (Len d) k); [|done]. simpl.
  apply suffix64_exact; [done | done | lia].
Qed.

Lemma trim_last64_exact k d :
  fits d → 0 ≤ k → trim_last64 k d = trim_last k d.
Proof.
  intros Hf Hk. unfold trim_last64, trim_last. rewrite (Len64_exact d Hf).
  destruct (is_Match d) eqn:Hm; [|done]. apply is_Match_true in Hm.
  destruct (Z.gtb_spec (Len d) k); [|done]. simpl.
  apply prefix64_exact; [done | done | lia].
Qed.

(** The doubled context length is where the bound is needed: at
    [2 * k > MaxInt64] the product wraps to a negative number. *)
Lemma compact_middle64_exact k out d :
  fits d → 0 ≤ k → 2 * k ≤ MaxInt64 →
  compact_middle64 k out d = compact_middle k out d.
Proof.
  intros Hf Hk H2k. unfold compact_middle64, compact_middle.
  rewrite (Len64_exact d Hf).
  rewrite (wrap_small (k * 2)) by (unfold MinInt64, MaxInt64 in *; lia).
  destruct (is_Match d) eqn:Hm; [|done]. apply is_Match_true in Hm.
  destruct (Z.gtb_spec (Len d) (k * 2)); [|done]. simpl.
  rewrite prefix64_exact, suffix64_exact by (done || lia). done.
Qed.

Lemma foldl_compact_middle64_exact k middle :
  0 ≤ k → 2 * k ≤ MaxInt64 → Forall fits middle →
  ∀ out, foldl (compact_middle64 k) out middle = foldl (compact_middle k) out middle.
Proof.
  intros Hk H2k. induction middle as [|d middle IH]; intros Hf out; [done|].
  apply Forall_cons in Hf. destruct Hf as [Hd Hf]. cbn [foldl].
  rewrite compact_middle64_exact by done. apply IH. done.
Qed.

Lemma Compact64_long first middle last k :
  middle ≠ [] →
  Compact64 (first :: middle ++ [last]) k =
    foldl (compact_middle64 k) [trim_first64 k first] middle ++ [trim_last64 k last].
Proof.
  intros Hne. destruct middle as [|m0 ms]; [done|].
  unfold Compact64. rewrite <- !app_comm_cons.
  destruct (ms ++ [last]) as [|x xs] eqn:E; [by destruct ms|].
  rewrite <- E.
  rewrite (app_comm_cons ms [last] m0), removelast_last, last_last. done.
Qed.

(** On records of two sequences that exist, and with a context length
    whose double is an [int], the code computes what its text says: no
    operation of [Compact] wraps. *)
Lemma Compact64_exact ds k :
  0 ≤ k → 2 * k ≤ MaxInt64 → Forall fits ds → Compact64 ds k = Compact ds k.
Proof.
  intros Hk H2k Hf.
  destruct (Compact_cases ds)
    as [->|[[d ->]|[(d0 & d1 & ->)|(first & middle & last & Hne & ->)]]].
  - done.
  - done.
  - apply Forall_cons in Hf. destruct Hf as [H0 Hf].
    apply Forall_cons in Hf. destruct Hf as [H1 _].
    pose proof (trim_first64_exact k d0 H0 Hk) as E0.
    pose proof (trim_last64_exact k d1 H1 Hk) as E1.
    unfold trim_first64, trim_first in E0. unfold trim_last64, trim_last in E1.
    unfold Compact64, Compact.
    rewrite (Len64_exact d0 H0) in *. rewrite (Len64_exact d1 H1) in *.
    destruct (is_Match d0 && (Len d0 >? k)); [by rewrite E0|].
    destruct (is_Match d1 && (Len d1 >? k)); [by rewrite E1 | done].
  - rewrite (Compact64_long first middle last k Hne).
    rewrite (Compact_long first middle last k Hne).
    apply Forall_cons in Hf. destruct Hf as [Hfirst Hf].
    apply Forall_app in Hf. destruct Hf as [Hmid Hlast].
    apply Forall_cons in Hlast. destruct Hlast as [Hlast _].
    rewrite foldl_compact_middle64_exact, foldl_compact_middle by done.
    rewrite trim_first64_exact, trim_last64_exact by done. done.
Qed.

(** ** Records that fit *)

Lemma chain_le equal ds :
  ∀ l r l' r', chain l r ds l' r' → Forall (run_ok equal) ds → l ≤ l' ∧ r ≤ r'.
Proof.
  induction ds as [|d ds IH]; intros l r l' r' Hch Hrun.
  - destruct Hch as [-> ->]. lia.
  - destruct Hch as (<- & <- & Hch).
    apply Forall_cons in Hrun. destruct Hrun as [Hd Hrun].
    specialize (IH _ _ _ _ Hch Hrun). apply run_ok_le in Hd. lia.
Qed.

Lemma run_ok_balanced equal d :
  run_ok equal d → dOp d = Match → Lend d - Lstart d = Rend d - Rstart d.
Proof. unfold run_ok. intros H Hm. rewrite Hm in H. tauto. Qed.

(** The records of a script for two sequences of lengths within [int]
    fit. *)
Lemma chain_fits equal ds :
  ∀ l r l' r',
    chain l r ds l' r' → Forall (run_ok equal) ds →
    0 ≤ l → 0 ≤ r → l' ≤ MaxInt64 → r' ≤ MaxInt64 →
    Forall fits ds.
Proof.
  induction ds as [|d ds IH]; intros l r l' r' Hch Hrun Hl Hr Hl' Hr'; [done|].
  destruct Hch as (<- & <- & Hch).
  apply Forall_cons in Hrun. destruct Hrun as [Hd Hrun].
  pose proof (chain_le equal ds _ _ _ _ Hch Hrun) as Hle.
  pose proof (run_ok_le equal d Hd) as Hdle.
  apply Forall_cons. split.
  - unfold fits. repeat split; try lia. apply (run_ok_balanced equal d Hd).
  - apply (IH _ _ _ _ Hch Hrun); lia.
Qed.







(** ** [Make] with an [Equal] that can panic *)

(** [Make] calls [Equal] on positions of the two sequences only; if no
    such call panics, [Make] does what it does with the predicate that
    gives the results of these calls. *)
Lemma MakeE_pure (ifaceE : InterfaceE) (iface : Interface) :
  LeftLenE ifaceE = LeftLen iface → RightLenE ifaceE = RightLen iface →
  (∀ l r, 0 ≤ l < LeftLen iface → 0 ≤ r < RightLen iface →
          EqualE ifaceE l r = Returned (Equal iface l r)) →
  MakeE ifaceE = Make iface.
Proof.
  intros Hl Hr H. unfold MakeE, Make. rewrite Hl, Hr.
  assert (E : build_tableE (LeftLen iface) (RightLen iface) (EqualE ifaceE)
              = build_table (LeftLen iface) (RightLen iface) (Equal iface)).
  { unfold build_tableE, build_table.
    do 6 (apply bind_ext; intros ?).
    apply for_range_ext. intros lidx t Hlidx. apply elem_of_seqZ in Hlidx.
    apply for_range_ext. intros ridx t' Hridx. apply elem_of_seqZ in Hridx.
    unfold fill_cellE, fill_cell. do 3 (apply bind_ext; intros ?).
    rewrite H by lia. done. }
  rewrite E. done.
Qed.

Lemma index_lookup {A} (s : list A) (i : Z) (x : A) :
  0 ≤ i → s !! Z.to_nat i = Some x → index s i = Returned x.
Proof.
  intros Hi Hx. apply index_Returned. split; [|done].
  apply lookup_lt_Some in Hx. lia.
Qed.

(** The example's [StringCompare] never panics inside [Make]: its
    positions are positions of the two lists of lines. *)
Lemma MakeE_StringCompareE LeftLines RightLines :
  MakeE (StringCompareE LeftLines RightLines) = Make (StringCompare LeftLines RightLines).
Proof.
  apply MakeE_pure; [done | done |]. simpl. intros l r Hl Hr.
  destruct (lookup_lt_is_Some_2 LeftLines (Z.to_nat l)) as [a Ha]; [lia|].
  destruct (lookup_lt_is_Some_2 RightLines (Z.to_nat r)) as [b Hb]; [lia|].
  rewrite (index_lookup LeftLines l a), (index_lookup RightLines r b) by (done || lia).
  cbn [bind].
  destruct (Z.ltb_spec l 0); [lia|]. destruct (Z.ltb_spec r 0); [lia|]. simpl.
  rewrite Ha, Hb. done.
Qed.

Lemma byte_at_in_range s i :
  0 ≤ i < Z.of_nat (String.length s) → ∃ a, byte_at s i = Some a.
Proof.
  intros Hi. unfold byte_at. destruct (Z.ltb_spec i 0); [lia|].
  assert (Hn : (Z.to_nat i < String.length s)%nat) by lia.
  revert Hn. generalize (Z.to_nat i). clear.
  induction s as [|c s IH]; intros n Hn; simpl in *; [lia|].
  destruct n as [|n]; [eauto|]. apply IH. lia.
Qed.

(** So does the [testcase] of the tests. *)
Lemma MakeE_testcaseE left right :
  MakeE (testcaseE left right) = Make (testcase left right).
Proof.
  apply MakeE_pure; [done | done |]. simpl. intros l r Hl Hr.
  destruct (byte_at_in_range left l Hl) as [a Ha].
  destruct (byte_at_in_range right r Hr) as [b Hb].
  unfold byte_index. rewrite Ha, Hb. done.
Qed.

(** * The claims *)

(** C1: applying the script of [Make] to the left sequence gives the right
    sequence.  For sequences [left] and [right] of the lengths the interface
    reports, [Make] returns a script such that: the [Match] and [Insert]
    ranges read from the right sequence, concatenated in script order with
    the [Delete] ranges skipped, are exactly [right]; and when elements
    matched by the predicate are equal, the left elements of the [Match]
    ranges and the right elements of the [Insert] ranges, concatenated in
    the same way, are exactly [right] as well. *)
Theorem Make_apply {A} (iface : Interface) (left right : list A) :
  Z.of_nat (length left) = LeftLen iface →
  Z.of_nat (length right) = RightLen iface →
  ∃ ds, Make iface = Returned ds ∧
    apply_script_right right ds = right ∧
    (respects (Equal iface) left right → apply_script left right ds = right).
Proof.
  intros Hl Hr.
  destruct (Make_spec iface ltac:(lia) ltac:(lia))
    as (table & c & ds & _ & _ & _ & EM & _ & Hch & Hrun & _ & _).
  exists ds. split; [done|].
  destruct (apply_chain (Equal iface) left right ds _ _ _ _ Hch Hrun)
    as [H1 H2]; try lia.
  rewrite <- Hr, slice_all in H1, H2. done.
Qed.

Lemma Make_apply_witness :
  let left := ["the"; "quick"; "fox"]%string in
  let right := ["the"; "lazy"; "fox"]%string in
  ∃ ds, Make (StringCompare left right) = Returned ds ∧
    apply_script_right right ds = right ∧
    (respects (Equal (StringCompare left right)) left right →
     apply_script left right ds = right).
Proof.
  intros left right.
  apply (Make_apply (StringCompare left right) left right); reflexivity.
Defined.

(** C2: for non-negative lengths [Make] returns a contiguous cover.  The
    left ranges of its records, concatenated in order, are exactly
    [0, 1, ..., NL-1], and the right ranges exactly [0, 1, ..., NR-1]; every
    record ends where the next one starts, on both sides; the first record
    starts at [(0, 0)] and the last one ends at [(NL, NR)]. *)
Theorem Make_contiguous_cover (iface : Interface) :
  0 ≤ LeftLen iface → 0 ≤ RightLen iface →
  ∃ ds, Make iface = Returned ds ∧
    concat (left_range <$> ds) = seqZ 0 (LeftLen iface) ∧
    concat (right_range <$> ds) = seqZ 0 (RightLen iface) ∧
    (∀ d, d ∈ ds → Lstart d ≤ Lend d ∧ Rstart d ≤ Rend d) ∧
    (∀ i d d', ds !! i = Some d → ds !! S i = Some d' →
               Lend d = Lstart d' ∧ Rend d = Rstart d') ∧
    (∃ d, head ds = Some d ∧ Lstart d = 0 ∧ Rstart d = 0) ∧
    (∃ d, last ds = Some d ∧ Lend d = LeftLen iface ∧ Rend d = RightLen iface).
Proof.
  intros Hl Hr.
  destruct (Make_spec iface Hl Hr)
    as (table & c & ds & _ & _ & _ & EM & Hne & Hch & Hrun & _ & _).
  exists ds. split; [done|].
  destruct (chain_cover _ _ _ _ _ _ Hch Hrun) as (_ & _ & El & Er).
  rewrite !Z.sub_0_r in *.
  split; [done|]. split; [done|]. split; [|split; [|split]].
  - intros d Hd. rewrite Forall_forall in Hrun.
    apply (run_ok_le (Equal iface)). auto.
  - intros i d d'. eapply chain_adjacent; eauto.
  - destruct ds as [|d ds]; [done|]. exists d.
    destruct (chain_head _ _ _ _ _ _ Hch). done.
  - eapply chain_last; eauto.
Qed.

Lemma Make_contiguous_cover_witness :
  ∃ ds, Make (testcase "aBce" "acDe") = Returned ds ∧
    concat (left_range <$> ds) = seqZ 0 4 ∧
    concat (right_range <$> ds) = seqZ 0 4 ∧
    (∀ d, d ∈ ds → Lstart d ≤ Lend d ∧ Rstart d ≤ Rend d) ∧
    (∀ i d d', ds !! i = Some d → ds !! S i = Some d' →
               Lend d = Lstart d' ∧ Rend d = Rstart d') ∧
    (∃ d, head ds = Some d ∧ Lstart d = 0 ∧ Rstart d = 0) ∧
    (∃ d, last ds = Some d ∧ Lend d = 4 ∧ Rend d = 4).
Proof.
  apply (Make_contiguous_cover (testcase "aBce" "acDe")); simpl; lia.
Defined.

(** C3: the [Match] records of the script of [Make] select a longest common
    subsequence.  The index pairs they match are a common subsequence of
    the two sequences under the interface's predicate (strictly increasing
    on both sides, the predicate true of each pair); there are as many of
    them as the lengths of the [Match] records add up to; and no common
    subsequence is longer. *)
Theorem Make_longest_common_subsequence (iface : Interface) :
  0 ≤ LeftLen iface → 0 ≤ RightLen iface →
  ∃ ds, Make iface = Returned ds ∧
    common_subseq (Equal iface) 0 0 (LeftLen iface) (RightLen iface)
      (matched_pairs ds) ∧
    Z.of_nat (length (matched_pairs ds)) = match_total ds ∧
    (∀ i j, (i, j) ∈ matched_pairs ds → Equal iface i j = true) ∧
    (∀ ps, common_subseq (Equal iface) 0 0 (LeftLen iface) (RightLen iface) ps →
           Z.of_nat (length ps) ≤ match_total ds).
Proof.
  intros Hl Hr.
  destruct (Make_spec iface Hl Hr)
    as (table & c & ds & _ & Hok & Hc & EM & _ & Hch & Hrun & _ & Htot).
  exists ds. split; [done|].
  destruct (chain_matched _ _ _ _ _ _ Hch Hrun) as [Hcs Hlen].
  split; [done|]. split; [done|]. split.
  - intros i j. eapply cs_elem; eauto.
  - intros ps Hps. rewrite Htot.
    apply (lcs_upper (Equal iface) _ _ table Hok
             (Z.to_nat (LeftLen iface + RightLen iface))
             (LeftLen iface) (RightLen iface)); try done; lia.
Qed.

Lemma Make_longest_common_subsequence_witness :
  ∃ ds, Make (testcase "aBaCa" "aCaBa") = Returned ds ∧
    common_subseq (Equal (testcase "aBaCa" "aCaBa")) 0 0 5 5 (matched_pairs ds) ∧
    Z.of_nat (length (matched_pairs ds)) = match_total ds ∧
    (∀ i j, (i, j) ∈ matched_pairs ds →
            Equal (testcase "aBaCa" "aCaBa") i j = true) ∧
    (∀ ps, common_subseq (Equal (testcase "aBaCa" "aCaBa")) 0 0 5 5 ps →
           Z.of_nat (length ps) ≤ match_total ds).
Proof.
  apply (Make_longest_common_subsequence (testcase "aBaCa" "aCaBa")); simpl; lia.
Defined.

(** C4: on ["aBaCa"] against ["aCaBa"] [Make] returns the four records of
    the package's test, and the fill loop breaks ties the way that test
    pins down: at a position whose elements differ, the cell is labelled
    [Delete] (with the length of the delete neighbour [table[l-1][r]]) when
    the insert neighbour [table[l][r-1]] has a strictly smaller length, and
    [Insert] (with the insert neighbour's length) otherwise, equality
    included. *)
Theorem Make_aBaCa_tie_break :
  Make (testcase "aBaCa" "aCaBa") =
    Returned [mkDiff Delete 0 2 0 0; mkDiff Match 2 4 0 2;
              mkDiff Insert 4 4 2 4; mkDiff Match 4 5 4 5] ∧
  ∀ equal table nl nr lidx ridx,
    dims table nl nr → 1 ≤ lidx < nl → 1 ≤ ridx < nr →
    equal (lidx - 1) (ridx - 1) = false →
    ∃ lcell rcell table',
      index2 table lidx (ridx - 1) = Returned lcell ∧
      index2 table (lidx - 1) ridx = Returned rcell ∧
      fill_cell equal lidx ridx table = Returned table' ∧
      index2 table' lidx ridx =
        Returned (if clength lcell <? clength rcell
                  then mkCell Delete (clength rcell)
                  else mkCell Insert (clength lcell)).
Proof.
  split; [vm_compute; reflexivity|].
  intros equal table nl nr lidx ridx Hd Hl Hr He.
  destruct (fill_cell_written equal table nl nr lidx ridx Hd Hl Hr)
    as (lc & rc & lrc & t' & H1 & H2 & _ & H4 & H5).
  exists lc, rc, t'. rewrite He in H5. done.
Qed.

Lemma Make_aBaCa_tie_break_witness :
  let table := [[mkCell Match 0; mkCell Insert 0]; [mkCell Delete 0; zero_cell]] in
  ∃ lcell rcell table',
    index2 table 1 (1 - 1) = Returned lcell ∧
    index2 table (1 - 1) 1 = Returned rcell ∧
    fill_cell (fun _ _ => false) 1 1 table = Returned table' ∧
    index2 table' 1 1 =
      Returned (if clength lcell <? clength rcell
                then mkCell Delete (clength rcell)
                else mkCell Insert (clength lcell)).
Proof.
  intros table.
  apply (proj2 Make_aBaCa_tie_break (fun _ _ => false) table 2 2 1 1);
    [|lia|lia|reflexivity].
  split; [reflexivity|].
  intros [|[|k]] row Hk; simpl in Hk; inversion Hk; reflexivity.
Defined.

(** C5: in the script [Make] returns for non-negative lengths, no two
    consecutive records carry the same operation. *)
Theorem Make_no_adjacent_same_op (iface : Interface) :
  0 ≤ LeftLen iface → 0 ≤ RightLen iface →
  ∃ ds, Make iface = Returned ds ∧
    ∀ i d d', ds !! i = Some d → ds !! S i = Some d' → dOp d ≠ dOp d'.
Proof.
  intros Hl Hr.
  destruct (Make_spec iface Hl Hr)
    as (table & c & ds & _ & _ & _ & EM & _ & _ & _ & Halt & _).
  exists ds. split; [done|].
  intros i d d'. apply alternating_lookup. done.
Qed.

Lemma Make_no_adjacent_same_op_witness :
  ∃ ds, Make (testcase "aBaCa" "aCaBa") = Returned ds ∧
    ∀ i d d', ds !! i = Some d → ds !! S i = Some d' → dOp d ≠ dOp d'.
Proof.
  apply (Make_no_adjacent_same_op (testcase "aBaCa" "aCaBa")); simpl; lia.
Defined.

(** C6 as stated fails: for two empty sequences the backward loop does not
    run, and the closing [record(noOp, 0, 0)] emits the pending record
    [{Match, 0, 0, 0, 0}], so the script is not empty. *)
Lemma Make_empty_input_not_empty_script :
  ¬ (∀ iface, LeftLen iface = 0 → RightLen iface = 0 → Make iface = Returned []).
Proof.
  intros H. specialize (H (testcase "" "") eq_refl eq_refl).
  vm_compute in H. discriminate H.
Qed.

(** C6, amended: when both lengths are zero, [Make] returns the script made
    of the single empty record [{Match, 0, 0, 0, 0}]. *)
Theorem Make_empty_input (iface : Interface) :
  LeftLen iface = 0 → RightLen iface = 0 →
  Make iface = Returned [mkDiff Match 0 0 0 0].
Proof.
  destruct iface as [llen rlen equal]. simpl. intros -> ->. reflexivity.
Qed.

Lemma Make_empty_input_witness :
  Make (testcase "" "") = Returned [mkDiff Match 0 0 0 0].
Proof.
  apply (Make_empty_input (testcase "" "")); reflexivity.
Defined.




(** C8: when a sequence is compared against itself (equal lengths, every
    element equal to itself under the predicate), [Make] returns the single
    record [{Match, 0, n, 0, n}] and [Compact] turns it into the empty
    result, for every context length [k >= 0]; the empty sequence
    included. *)
Theorem Compact_Make_identical (iface : Interface) (k : Z) :
  0 ≤ LeftLen iface → RightLen iface = LeftLen iface →
  (∀ i, 0 ≤ i < LeftLen iface → Equal iface i i = true) →
  0 ≤ k →
  ∃ ds, Make iface = Returned ds ∧ Compact ds k = [].
Proof.
  intros Hn Hr Hdiag Hk. eexists. split.
  - apply Make_identical; done.
  - reflexivity.
Qed.

Lemma Compact_Make_identical_witness :
  ∃ ds, Make (testcase "abc" "abc") = Returned ds ∧ Compact ds 2 = [].
Proof.
  apply (Compact_Make_identical (testcase "abc" "abc") 2); simpl; try lia.
  intros i Hi.
  assert (i = 0 ∨ i = 1 ∨ i = 2) as [->|[->| ->]] by lia; reflexivity.
Defined.

(** C9 as stated fails: [Make] has no check of the lengths.  With a left
    length of [-1] the outer table is allocated (with no row at all) and
    the failure is the runtime's index error at [table[0]], not an error
    that [Make] raises. *)
Lemma Make_negative_length_not_validated :
  ¬ (∀ iface, LeftLen iface < 0 ∨ RightLen iface < 0 →
              raised_by_check (Make iface)).
Proof.
  intros H.
  destruct (H (mkInterface (-1) 0 (fun _ _ => true))) as [msg Hmsg].
  - left. simpl. lia.
  - vm_compute in Hmsg. discriminate Hmsg.
Qed.

(** C9, amended: for a negative left or right length [Make] checks
    nothing and raises no error of its own: it returns no script and ends
    in a panic of the Go runtime, raised while the table is allocated or
    first indexed. *)
Theorem Make_negative_length_panics (iface : Interface) :
  LeftLen iface < 0 ∨ RightLen iface < 0 →
  ∃ e, Make iface = Panicked (RuntimeError e).
Proof.
  intros Hneg. unfold Make.
  rewrite (build_table_negative _ _ (Equal iface) Hneg). eexists. done.
Qed.

Lemma Make_negative_length_panics_witness :
  ∃ e, Make (mkInterface 3 (-2) (fun _ _ => true)) = Panicked (RuntimeError e).
Proof.
  apply (Make_negative_length_panics (mkInterface 3 (-2) (fun _ _ => true))).
  right. simpl. lia.
Defined.




(** Outside the scripts of [Make] idempotence can fail for a small context
    length too: with two adjacent [Match] records, each longer than the
    context, the second pass trims the record the first pass left whole. *)
Example Compact_not_idempotent_in_general :
  let ds := [mkDiff Match 0 3 0 3; mkDiff Match 3 6 3 6] in
  Compact64 ds 1 = [mkDiff Match 2 3 2 3; mkDiff Match 3 6 3 6] ∧
  Compact64 (Compact64 ds 1) 1 = [mkDiff Match 2 3 2 3; mkDiff Match 3 4 3 4].
Proof. split; vm_compute; reflexivity. Qed.

(** * Further properties *)

(** ** [Make] through its backward loop *)

Lemma cell_op_labelled equal llen rlen table l r c :
  table_ok equal llen rlen table →
  0 ≤ l ≤ llen → 0 ≤ r ≤ rlen →
  index2 table l r = Returned c → op c ≠ noOp.
Proof.
  intros Hok Hl Hr Hc.
  destruct (decide (0 < l ∨ 0 < r)) as [Hpos|Hz].
  - destruct (cell_back _ _ _ _ Hok l r c Hl Hr Hpos Hc) as (? & ? & ? & Hb & _).
    intros E. rewrite E in Hb. done.
  - assert (l = 0 ∧ r = 0) as [-> ->] by lia.
    rewrite (ok_origin _ _ _ _ Hok) in Hc. inversion Hc. done.
Qed.

(** the state the backward loop ends in, and the script made from it *)
Lemma Make_trace (iface : Interface) :
  0 ≤ LeftLen iface → 0 ≤ RightLen iface →
  ∃ table c st',
    table_ok (Equal iface) (LeftLen iface) (RightLen iface) table ∧
    index2 table (LeftLen iface) (RightLen iface) = Returned c ∧
    trace (Z.to_nat (LeftLen iface + RightLen iface)) table
      (LeftLen iface) (RightLen iface)
      (mkTrace [] (mkDiff (op c) (LeftLen iface) (LeftLen iface)
                          (RightLen iface) (RightLen iface))) = Returned st' ∧
    dOp (lastdiff st') ≠ noOp ∧
    Make iface = Returned (collected 0 0 st').
Proof.
  intros Hllen Hrlen.
  destruct (build_table_ok (Equal iface) _ _ Hllen Hrlen) as (table & Eb & Hok).
  destruct (index2_in_dims table _ _ (LeftLen iface) (RightLen iface)
              (ok_dims _ _ _ _ Hok)) as [c Hc]; [lia..|].
  pose proof (cell_op_labelled (Equal iface) (LeftLen iface) (RightLen iface) table
                (LeftLen iface) (RightLen iface) c Hok ltac:(lia) ltac:(lia) Hc) as Hop.
  set (st0 := mkTrace [] (mkDiff (op c) (LeftLen iface) (LeftLen iface)
                                 (RightLen iface) (RightLen iface))).
  destruct (trace_spec _ _ _ _ Hok (Z.to_nat (LeftLen iface + RightLen iface))
              (LeftLen iface) (RightLen iface) st0 c)
    as (st' & Et & Hch & Hrun & Halt & Htot); try lia; try done.
  { unfold collected, pending, st0; simpl.
    apply Forall_cons. split; [|done].
    unfold run_ok; simpl. destruct (op c) eqn:Eop; try congruence;
      repeat split; try lia. }
  assert (Hlast : dOp (lastdiff st') ≠ noOp).
  { apply Forall_cons in Hrun. destruct Hrun as [Hrun _].
    unfold run_ok, pending in Hrun. simpl in Hrun.
    intros E. rewrite E in Hrun. done. }
  exists table, c, st'. repeat (split; [done|]).
  unfold Make. rewrite Eb. cbn [bind]. rewrite Hc. cbn [bind].
  fold st0. rewrite Et. cbn [bind].
  rewrite reverse_diffs_spec. f_equal.
  unfold record, collected, pending. cbn [dOp Lstart Rstart].
  rewrite decide_True by congruence.
  cbn [diffs]. rewrite reverse_snoc. done.
Qed.

(** X1: [Make] never reaches its own [panic("DP table construction
    error, ...")]: whatever the interface reports, the call does not end
    with a panic value raised by the package. *)
Theorem Make_never_raises (iface : Interface) (msg : string) :
  Make iface ≠ Panicked (PanicValue msg).
Proof.
  destruct (decide (0 ≤ LeftLen iface ∧ 0 ≤ RightLen iface)) as [[Hl Hr]|Hneg].
  - destruct (Make_trace iface Hl Hr) as (? & ? & ? & _ & _ & _ & _ & E).
    rewrite E. done.
  - unfold Make. rewrite build_table_negative by lia. done.
Qed.

(** ** One side empty, or nothing in common *)

Section Borders.
Variable equal : Z → Z → bool.
Variables llen rlen : Z.
Variable table : list (list cell).
Hypothesis Hok : table_ok equal llen rlen table.

(** down the first column the loop only lengthens a pending [Delete] *)
Lemma col0_trace fuel :
  ∀ l ds a b e f, 0 ≤ l ≤ llen → l ≤ Z.of_nat fuel →
    ∃ a' b', trace fuel table l 0 (mkTrace ds (mkDiff Delete a e b f))
             = Returned (mkTrace ds (mkDiff Delete a' e b' f)).
Proof.
  induction fuel as [|fuel IH]; intros l ds a b e f Hl Hfuel.
  - assert (l = 0) as -> by lia. exists a, b. done.
  - destruct (decide (l = 0)) as [->|Hl0]; [exists a, b; done|].
    cbn [trace].
    replace ((l >? 0) || (0 >? 0)) with true
      by (symmetry; apply orb_true_iff; left; lia).
    rewrite (ok_col0 _ _ _ _ Hok) by lia. cbn [bind op].
    unfold record. cbn [lastdiff dOp diffs Lend Rend].
    rewrite decide_False by (intros ?; done).
    apply IH; lia.
Qed.

(** along the first row it only lengthens a pending [Insert] *)
Lemma row0_trace fuel :
  ∀ r ds a b e f, 0 ≤ r ≤ rlen → r ≤ Z.of_nat fuel →
    ∃ a' b', trace fuel table 0 r (mkTrace ds (mkDiff Insert a e b f))
             = Returned (mkTrace ds (mkDiff Insert a' e b' f)).
Proof.
  induction fuel as [|fuel IH]; intros r ds a b e f Hr Hfuel.
  - assert (r = 0) as -> by lia. exists a, b. done.
  - destruct (decide (r = 0)) as [->|Hr0]; [exists a, b; done|].
    cbn [trace].
    replace ((0 >? 0) || (r >? 0)) with true
      by (symmetry; apply orb_true_iff; right; lia).
    rewrite (ok_row0 _ _ _ _ Hok) by lia. cbn [bind op].
    unfold record. cbn [lastdiff dOp diffs Lend Rend].
    rewrite decide_False by (intros ?; done).
    apply IH; lia.
Qed.
End Borders.

(** X2: when the left sequence is empty and the right one is not, [Make]
    returns the single record [{Insert, 0, 0, 0, NR}]. *)
Theorem Make_left_empty (iface : Interface) :
  LeftLen iface = 0 → 1 ≤ RightLen iface →
  Make iface = Returned [mkDiff Insert 0 0 0 (RightLen iface)].
Proof.
  destruct iface as [llen n equal]. simpl. intros -> Hn.
  destruct (build_table_ok equal 0 n ltac:(lia) ltac:(lia)) as (table & Eb & Hok).
  destruct (row0_trace equal 0 n table Hok (Z.to_nat (0 + n)) n [] 0 n 0 n
              ltac:(lia) ltac:(lia)) as (a' & b' & Et).
  unfold Make. cbn [LeftLen RightLen Equal].
  rewrite Eb. cbn [bind]. rewrite (ok_row0 _ _ _ _ Hok) by lia. cbn [bind op].
  rewrite Et. cbn [bind].
  rewrite reverse_diffs_spec. reflexivity.
Qed.

Lemma Make_left_empty_witness :
  Make (testcase "" "abc") = Returned [mkDiff Insert 0 0 0 3].
Proof.
  apply (Make_left_empty (testcase "" "abc")); simpl; lia.
Defined.

(** X3: when the right sequence is empty and the left one is not, [Make]
    returns the single record [{Delete, 0, NL, 0, 0}]. *)
Theorem Make_right_empty (iface : Interface) :
  1 ≤ LeftLen iface → RightLen iface = 0 →
  Make iface = Returned [mkDiff Delete 0 (LeftLen iface) 0 0].
Proof.
  destruct iface as [n rlen equal]. simpl. intros Hn ->.
  destruct (build_table_ok equal n 0 ltac:(lia) ltac:(lia)) as (table & Eb & Hok).
  destruct (col0_trace equal n 0 table Hok (Z.to_nat (n + 0)) n [] n 0 n 0
              ltac:(lia) ltac:(lia)) as (a' & b' & Et).
  unfold Make. cbn [LeftLen RightLen Equal].
  rewrite Eb. cbn [bind]. rewrite (ok_col0 _ _ _ _ Hok) by lia. cbn [bind op].
  rewrite Et. cbn [bind].
  rewrite reverse_diffs_spec. reflexivity.
Qed.

Lemma Make_right_empty_witness :
  Make (testcase "abc" "") = Returned [mkDiff Delete 0 3 0 0].
Proof.
  apply (Make_right_empty (testcase "abc" "")); simpl; lia.
Defined.

Section NothingInCommon.
Variable equal : Z → Z → bool.
Variables llen rlen : Z.
Variable table : list (list cell).
Hypothesis Hok : table_ok equal llen rlen table.
Hypothesis Hdiff : ∀ l r, 0 ≤ l < llen → 0 ≤ r < rlen → equal l r = false.

(** with no equal pair every length in the table is zero and every inner
    cell is an [Insert] *)
Lemma all_cells_zero n :
  ∀ l r c,
    l + r ≤ Z.of_nat n → 0 ≤ l ≤ llen → 0 ≤ r ≤ rlen →
    index2 table l r = Returned c →
    clength c = 0 ∧ (1 ≤ l → 1 ≤ r → op c = Insert).
Proof.
  induction n as [|n IH]; intros l r c Hn Hl Hr Hc.
  - assert (l = 0 ∧ r = 0) as [-> ->] by lia.
    rewrite (ok_origin _ _ _ _ Hok) in Hc. inversion Hc. simpl. split; [done | lia].
  - destruct (decide (l = 0)) as [->|Hl0]; [|destruct (decide (r = 0)) as [->|Hr0]].
    + destruct (decide (r = 0)) as [->|Hr0].
      * rewrite (ok_origin _ _ _ _ Hok) in Hc. inversion Hc. simpl. split; [done | lia].
      * rewrite (ok_row0 _ _ _ _ Hok) in Hc by lia. inversion Hc. simpl.
        split; [done | lia].
    + rewrite (ok_col0 _ _ _ _ Hok) in Hc by lia. inversion Hc. simpl.
      split; [done | lia].
    + destruct (ok_inner _ _ _ _ Hok l r) as (lc & rc & lrc & H1 & H2 & H3 & H4);
        [lia..|].
      rewrite H4 in Hc. inversion Hc; subst c. clear Hc.
      destruct (IH l (r - 1) lc ltac:(lia) ltac:(lia) ltac:(lia) H1) as [E1 _].
      destruct (IH (l - 1) r rc ltac:(lia) ltac:(lia) ltac:(lia) H2) as [E2 _].
      rewrite Hdiff by lia. unfold step_cell. rewrite E1, E2. simpl. done.
Qed.

(** from the last row the loop walks left to column 0 on [Insert] cells,
    turns once, and walks up column 0 on [Delete] cells *)
Lemma insert_then_delete_trace fuel :
  ∀ r a b, 1 ≤ llen → 1 ≤ r ≤ rlen → llen + r ≤ Z.of_nat fuel →
    ∃ a' b',
      trace fuel table llen r (mkTrace [] (mkDiff Insert a llen b rlen))
      = Returned (mkTrace [mkDiff Insert llen llen 0 rlen]
                          (mkDiff Delete a' llen b' 0)).
Proof.
  induction fuel as [|fuel IH]; intros r a b Hl Hr Hfuel; [lia|].
  destruct (index2_in_dims table _ _ llen r (ok_dims _ _ _ _ Hok)) as [c Hc]; [lia..|].
  destruct (all_cells_zero (Z.to_nat (llen + r)) llen r c
              ltac:(lia) ltac:(lia) ltac:(lia) Hc) as [_ Hop].
  specialize (Hop ltac:(lia) ltac:(lia)).
  cbn [trace].
  replace ((llen >? 0) || (r >? 0)) with true
    by (symmetry; apply orb_true_iff; left; lia).
  rewrite Hc. cbn [bind]. rewrite Hop.
  unfold record at 1. cbn [lastdiff dOp diffs Lend Rend].
  rewrite decide_False by (intros ?; done).
  destruct (decide (r = 1)) as [->|Hr1]; [|apply IH; lia].
  replace (1 - 1) with 0 by lia.
  destruct fuel as [|fuel]; [lia|].
  cbn [trace].
  replace ((llen >? 0) || (0 >? 0)) with true
    by (symmetry; apply orb_true_iff; left; lia).
  rewrite (ok_col0 _ _ _ _ Hok) by lia. cbn [bind op].
  unfold record. cbn [lastdiff dOp diffs Lstart Lend Rstart Rend].
  rewrite decide_True by done. cbn [app].
  apply (col0_trace equal llen rlen table Hok); lia.
Qed.
End NothingInCommon.

(** X4: when both sequences are non-empty and no left element equals any
    right element, [Make] deletes the whole left sequence and then inserts
    the whole right one: [{Delete, 0, NL, 0, 0}; {Insert, NL, NL, 0, NR}]. *)
Theorem Make_nothing_in_common (iface : Interface) :
  1 ≤ LeftLen iface → 1 ≤ RightLen iface →
  (∀ l r, 0 ≤ l < LeftLen iface → 0 ≤ r < RightLen iface →
          Equal iface l r = false) →
  Make iface =
    Returned [mkDiff Delete 0 (LeftLen iface) 0 0;
              mkDiff Insert (LeftLen iface) (LeftLen iface) 0 (RightLen iface)].
Proof.
  destruct iface as [nl nr equal]. simpl. intros Hl Hr Hdiff.
  destruct (build_table_ok equal nl nr ltac:(lia) ltac:(lia)) as (table & Eb & Hok).
  destruct (index2_in_dims table _ _ nl nr (ok_dims _ _ _ _ Hok)) as [c Hc]; [lia..|].
  destruct (all_cells_zero equal nl nr table Hok Hdiff (Z.to_nat (nl + nr)) nl nr c
              ltac:(lia) ltac:(lia) ltac:(lia) Hc) as [_ Hop].
  specialize (Hop ltac:(lia) ltac:(lia)).
  destruct (insert_then_delete_trace equal nl nr table Hok Hdiff
              (Z.to_nat (nl + nr)) nr nl nr ltac:(lia) ltac:(lia) ltac:(lia))
    as (a' & b' & Et).
  unfold Make. cbn [LeftLen RightLen Equal].
  rewrite Eb. cbn [bind]. rewrite Hc. cbn [bind]. rewrite Hop, Et. cbn [bind].
  rewrite reverse_diffs_spec. reflexivity.
Qed.

Lemma Make_nothing_in_common_witness :
  Make (testcase "aaa" "bb") =
    Returned [mkDiff Delete 0 3 0 0; mkDiff Insert 3 3 0 2].
Proof.
  apply (Make_nothing_in_common (testcase "aaa" "bb")); simpl; try lia.
  intros l r Hl Hr.
  assert (l = 0 ∨ l = 1 ∨ l = 2) as [->|[->| ->]] by lia;
    assert (r = 0 ∨ r = 1) as [->| ->] by lia; reflexivity.
Defined.

(** ** No empty record *)

Lemma record_step_nonempty equal o l r l' r' st :
  back_step equal o l r l' r' →
  Forall (fun d => 1 ≤ Len d) (reverse (diffs st)) →
  1 ≤ Len (pending l r st) ∨
    (Len (pending l r st) = 0 ∧ dOp (lastdiff st) = o) →
  Forall (fun d => 1 ≤ Len d) (reverse (diffs (record o l r st))) ∧
  1 ≤ Len (pending l' r' (record o l r st)).
Proof.
  unfold pending, record. destruct st as [ds ld]. cbn [lastdiff diffs dOp Lstart Rstart].
  intros Hback Hall Hpend.
  destruct (decide (o ≠ dOp ld)) as [Hop|Hop]; cbn [lastdiff diffs dOp Lend Rend].
  - destruct Hpend as [Hpend|[_ Heq]]; [|congruence].
    rewrite reverse_snoc. split; [apply Forall_cons; done|].
    unfold Len. cbn [dOp Lstart Lend Rstart Rend].
    destruct o; simpl in Hback; try done; lia.
  - apply dec_stable in Hop. subst o. split; [done|].
    unfold Len in *. cbn [dOp Lstart Lend Rstart Rend] in *.
    destruct (dOp ld); simpl in Hback; try done; lia.
Qed.

Section TraceNonempty.
Variable equal : Z → Z → bool.
Variables llen rlen : Z.
Variable table : list (list cell).
Hypothesis Hok : table_ok equal llen rlen table.

Lemma trace_nonempty fuel :
  ∀ l r st st' c,
    0 ≤ l ≤ llen → 0 ≤ r ≤ rlen →
    index2 table l r = Returned c →
    Forall (fun d => 1 ≤ Len d) (reverse (diffs st)) →
    1 ≤ Len (pending l r st) ∨
      (Len (pending l r st) = 0 ∧ dOp (lastdiff st) = op c) →
    trace fuel table l r st = Returned st' →
    Forall (fun d => 1 ≤ Len d) (reverse (diffs st')) ∧
    (0 < l ∨ 0 < r ∨ 1 ≤ Len (pending l r st) → 1 ≤ Len (pending 0 0 st')).
Proof.
  induction fuel as [|fuel IH]; intros l r st st' c Hl Hr Hc Hall Hpend Ht.
  - cbn [trace] in Ht.
    destruct ((l >? 0) || (r >? 0)) eqn:E; [done|].
    apply orb_false_iff in E. destruct E as [E1 E2].
    assert (l = 0 ∧ r = 0) as [-> ->] by lia.
    inversion Ht; subst st'. split; [done|]. intros [?|[?|?]]; [lia | lia | done].
  - destruct (decide (0 < l ∨ 0 < r)) as [Hpos|Hzero].
    + assert (E : (l >? 0) || (r >? 0) = true).
      { apply orb_true_iff. destruct Hpos; [left | right]; lia. }
      cbn [trace] in Ht. rewrite E, Hc in Ht. cbn [bind] in Ht.
      destruct (cell_back _ _ _ _ Hok l r c Hl Hr Hpos Hc)
        as (l' & r' & c' & Hback & Hl' & Hr' & Hc' & _).
      destruct (record_step_nonempty equal (op c) l r l' r' st Hback Hall Hpend)
        as [Hall' Hpend'].
      assert (Ht' : trace fuel table l' r' (record (op c) l r st) = Returned st').
      { destruct (op c); simpl in Hback; try done.
        - destruct Hback as (-> & -> & _). done.
        - destruct Hback as (-> & ->). done.
        - destruct Hback as (-> & ->). done. }
      destruct (IH l' r' _ st' c' Hl' Hr' Hc' Hall' (or_introl Hpend') Ht')
        as [Hres Hlast].
      split; [done|]. intros _. apply Hlast. auto.
    + assert (l = 0 ∧ r = 0) as [-> ->] by lia.
      cbn [trace] in Ht. simpl in Ht. inversion Ht; subst st'.
      split; [done|]. intros [?|[?|?]]; [lia | lia | done].
Qed.
End TraceNonempty.

(** X5: unless both sequences are empty, no record of the script of [Make]
    is empty, and every record has the shape of its operation: a [Match]
    covers as many left as right positions, a [Delete] covers no right
    position, an [Insert] covers no left position, and no record carries
    [noOp]. *)
Theorem Make_records_nonempty (iface : Interface) :
  0 ≤ LeftLen iface → 0 ≤ RightLen iface →
  0 < LeftLen iface ∨ 0 < RightLen iface →
  ∃ ds, Make iface = Returned ds ∧
    ∀ d, d ∈ ds → 1 ≤ Len d ∧ shape_ok d.
Proof.
  intros Hl Hr Hpos.
  destruct (Make_trace iface Hl Hr) as (table & c & st' & Hok & Hc & Et & _ & EM).
  destruct (Make_spec iface Hl Hr)
    as (_ & _ & ds & _ & _ & _ & EM' & _ & _ & Hrun & _ & _).
  rewrite EM in EM'. inversion EM'; subst ds. clear EM'.
  exists (collected 0 0 st'). split; [done|].
  set (st0 := mkTrace [] (mkDiff (op c) (LeftLen iface) (LeftLen iface)
                                 (RightLen iface) (RightLen iface))) in *.
  assert (Hop : op c ≠ noOp).
  { apply (cell_op_labelled (Equal iface) (LeftLen iface) (RightLen iface) table
             (LeftLen iface) (RightLen iface) c Hok); [lia | lia | done]. }
  assert (Hstart : 1 ≤ Len (pending (LeftLen iface) (RightLen iface) st0) ∨
            (Len (pending (LeftLen iface) (RightLen iface) st0) = 0 ∧
             dOp (lastdiff st0) = op c)).
  { right. split; [|done]. unfold Len, pending, st0. simpl.
    destruct (op c); try done; lia. }
  destruct (trace_nonempty (Equal iface) (LeftLen iface) (RightLen iface) table Hok
              (Z.to_nat (LeftLen iface + RightLen iface))
              (LeftLen iface) (RightLen iface) st0 st' c
              ltac:(lia) ltac:(lia) Hc (Forall_nil_2 _) Hstart Et)
    as [Hall Hlast].
  assert (Hlast' : 1 ≤ Len (pending 0 0 st')) by (apply Hlast; lia).
  intros d Hd. split.
  - unfold collected in Hd. apply elem_of_cons in Hd. destruct Hd as [->|Hd]; [done|].
    rewrite Forall_forall in Hall. auto.
  - rewrite Forall_forall in Hrun. specialize (Hrun d Hd).
    unfold run_ok in Hrun. unfold shape_ok. destruct (dOp d); try done; lia.
Qed.

Lemma Make_records_nonempty_witness :
  ∃ ds, Make (testcase "aBce" "acDe") = Returned ds ∧
    ∀ d, d ∈ ds → 1 ≤ Len d ∧ shape_ok d.
Proof.
  apply (Make_records_nonempty (testcase "aBce" "acDe")); simpl; lia.
Defined.

(** ** How much a script matches, deletes and inserts *)

Lemma chain_totals equal ds :
  ∀ l r l' r',
    chain l r ds l' r' → Forall (run_ok equal) ds →
    op_total Match ds + op_total Delete ds = l' - l ∧
    op_total Match ds + op_total Insert ds = r' - r.
Proof.
  induction ds as [|d ds IH]; intros l r l' r' Hch Hrun.
  - destruct Hch as [-> ->]. simpl. lia.
  - destruct Hch as (<- & <- & Hch).
    apply Forall_cons in Hrun. destruct Hrun as [Hd Hrun].
    destruct (IH _ _ _ _ Hch Hrun) as [IH1 IH2].
    cbn [op_total]. unfold run_ok in Hd. unfold Len.
    destruct (dOp d) eqn:Hop; try done;
      repeat (case_decide; try congruence); lia.
Qed.

(** X6: in the script of [Make] the lengths ([Len]) of the [Match] and
    [Delete] records add up to the left length, and those of the [Match]
    and [Insert] records to the right length: every left element is matched
    or deleted, every right element matched or inserted, once. *)
Theorem Make_totals (iface : Interface) :
  0 ≤ LeftLen iface → 0 ≤ RightLen iface →
  ∃ ds, Make iface = Returned ds ∧
    op_total Match ds + op_total Delete ds = LeftLen iface ∧
    op_total Match ds + op_total Insert ds = RightLen iface.
Proof.
  intros Hl Hr.
  destruct (Make_spec iface Hl Hr)
    as (_ & _ & ds & _ & _ & _ & EM & _ & Hch & Hrun & _ & _).
  exists ds. split; [done|].
  destruct (chain_totals _ _ _ _ _ _ Hch Hrun) as [H1 H2]. lia.
Qed.

Lemma Make_totals_witness :
  ∃ ds, Make (testcase "bbbCCCddd" "CCCeee") = Returned ds ∧
    op_total Match ds + op_total Delete ds = 9 ∧
    op_total Match ds + op_total Insert ds = 6.
Proof.
  apply (Make_totals (testcase "bbbCCCddd" "CCCeee")); simpl; lia.
Defined.

(** ** The left sequence read back from a script *)

Lemma left_of_chain {A} equal (left : list A) ds :
  ∀ l r l' r',
    chain l r ds l' r' → Forall (run_ok equal) ds →
    0 ≤ l → left_of_script left ds = slice left l l'.
Proof.
  unfold left_of_script.
  induction ds as [|d ds IH]; intros l r l' r' Hch Hrun Hl.
  - destruct Hch as [-> _]. rewrite slice_nil. done.
  - destruct Hch as (<- & <- & Hch).
    apply Forall_cons in Hrun. destruct Hrun as [Hd Hrun].
    pose proof (run_ok_le _ _ Hd) as [Hdl Hdr].
    destruct (chain_cover _ _ _ _ _ _ Hch Hrun) as (Hcl & Hcr & _).
    rewrite bind_cons, (IH _ _ _ _ Hch Hrun) by lia.
    unfold left_of_Diff. unfold run_ok in Hd.
    destruct (dOp d); try done.
    + apply slice_app; lia.
    + apply slice_app; lia.
    + destruct Hd as [<- _]. done.
Qed.

(** X7: the script of [Make] also gives back the left sequence: the left
    elements of its [Match] and [Delete] ranges, concatenated in script
    order with the [Insert] records skipped, are exactly the left
    sequence. *)
Theorem Make_left_of_script {A} (iface : Interface) (left : list A) :
  Z.of_nat (length left) = LeftLen iface → 0 ≤ RightLen iface →
  ∃ ds, Make iface = Returned ds ∧ left_of_script left ds = left.
Proof.
  intros Hl Hr.
  destruct (Make_spec iface ltac:(lia) Hr)
    as (_ & _ & ds & _ & _ & _ & EM & _ & Hch & Hrun & _ & _).
  exists ds. split; [done|].
  rewrite (left_of_chain (Equal iface) left ds _ _ _ _ Hch Hrun) by lia.
  rewrite <- Hl. apply slice_all.
Qed.

Lemma Make_left_of_script_witness :
  let left := ["the"; "quick"; "fox"]%string in
  let right := ["the"; "lazy"; "fox"]%string in
  ∃ ds, Make (StringCompare left right) = Returned ds ∧
        left_of_script left ds = left.
Proof.
  intros left right.
  apply (Make_left_of_script (StringCompare left right) left); simpl; [reflexivity | lia].
Defined.

(** ** Every cell of the table is a longest-common-subsequence length *)

Section LcsAttained.
Variable equal : Z → Z → bool.
Variables llen rlen : Z.
Variable table : list (list cell).
Hypothesis Hok : table_ok equal llen rlen table.

Lemma lcs_attained n :
  ∀ l r c,
    l + r ≤ Z.of_nat n → 0 ≤ l ≤ llen → 0 ≤ r ≤ rlen →
    index2 table l r = Returned c →
    ∃ ps, common_subseq equal 0 0 l r ps ∧ Z.of_nat (length ps) = clength c.
Proof.
  induction n as [|n IH]; intros l r c Hn Hl Hr Hc.
  - assert (l = 0 ∧ r = 0) as [-> ->] by lia.
    rewrite (ok_origin _ _ _ _ Hok) in Hc. inversion Hc. exists []. done.
  - destruct (decide (l = 0)) as [->|Hl0]; [|destruct (decide (r = 0)) as [->|Hr0]].
    + exists []. split; [done|]. destruct (decide (r = 0)) as [->|Hr0].
      * rewrite (ok_origin _ _ _ _ Hok) in Hc. inversion Hc. done.
      * rewrite (ok_row0 _ _ _ _ Hok) in Hc by lia. inversion Hc. done.
    + exists []. split; [done|].
      rewrite (ok_col0 _ _ _ _ Hok) in Hc by lia. inversion Hc. done.
    + destruct (ok_inner _ _ _ _ Hok l r) as (lc & rc & lrc & H1 & H2 & H3 & H4);
        [lia..|].
      rewrite H4 in Hc. inversion Hc; subst c. clear Hc.
      unfold step_cell. destruct (equal (l - 1) (r - 1)) eqn:He;
        [|destruct (Z.ltb_spec (clength lc) (clength rc))]; simpl.
      * destruct (IH (l - 1) (r - 1) lrc ltac:(lia) ltac:(lia) ltac:(lia) H3)
          as (ps & Hps & Hlen).
        exists (ps ++ [(l - 1, r - 1)]). split.
        -- apply cs_snoc. repeat split; try done; lia.
        -- rewrite length_app. simpl. lia.
      * destruct (IH (l - 1) r rc ltac:(lia) ltac:(lia) ltac:(lia) H2)
          as (ps & Hps & Hlen).
        exists ps. split; [|done].
        apply (cs_weaken _ _ _ _ _ _ _ _ _ _ Hps); lia.
      * destruct (IH l (r - 1) lc ltac:(lia) ltac:(lia) ltac:(lia) H1)
          as (ps & Hps & Hlen).
        exists ps. split; [|done].
        apply (cs_weaken _ _ _ _ _ _ _ _ _ _ Hps); lia.
Qed.
End LcsAttained.

(** X8: for non-negative lengths the table that [Make] fills is the
    longest-common-subsequence table: at every position [(l, r)] the stored
    length is the length of some common subsequence of the first [l] left
    and the first [r] right elements, and no common subsequence of these
    prefixes is longer. *)
Theorem build_table_lcs (llen rlen : Z) (equal : Z → Z → bool) :
  0 ≤ llen → 0 ≤ rlen →
  ∃ table, build_table llen rlen equal = Returned table ∧
    ∀ l r, 0 ≤ l ≤ llen → 0 ≤ r ≤ rlen →
      ∃ c, index2 table l r = Returned c ∧
        (∃ ps, common_subseq equal 0 0 l r ps ∧ Z.of_nat (length ps) = clength c) ∧
        (∀ ps, common_subseq equal 0 0 l r ps → Z.of_nat (length ps) ≤ clength c).
Proof.
  intros Hl Hr.
  destruct (build_table_ok equal llen rlen Hl Hr) as (table & Eb & Hok).
  exists table. split; [done|].
  intros l r Hl' Hr'.
  destruct (index2_in_dims table _ _ l r (ok_dims _ _ _ _ Hok)) as [c Hc]; [lia..|].
  exists c. split; [done|]. split.
  - apply (lcs_attained equal llen rlen table Hok (Z.to_nat (l + r)) l r c);
      try done; lia.
  - intros ps Hps.
    apply (lcs_upper equal llen rlen table Hok (Z.to_nat (l + r)) l r c ps);
      try done; lia.
Qed.

Lemma build_table_lcs_witness :
  let equal := Equal (testcase "ab" "ba") in
  ∃ table, build_table 2 2 equal = Returned table ∧
    ∀ l r, 0 ≤ l ≤ 2 → 0 ≤ r ≤ 2 →
      ∃ c, index2 table l r = Returned c ∧
        (∃ ps, common_subseq equal 0 0 l r ps ∧ Z.of_nat (length ps) = clength c) ∧
        (∀ ps, common_subseq equal 0 0 l r ps → Z.of_nat (length ps) ≤ clength c).
Proof.
  intros equal. apply (build_table_lcs 2 2 equal); lia.
Defined.

(** ** The edits survive compaction *)

Lemma is_Match_false d : is_Match d = false ↔ dOp d ≠ Match.
Proof. unfold is_Match. apply bool_decide_eq_false. Qed.

Lemma edits_cons_Match d ds : dOp d = Match → edits (d :: ds) = edits ds.
Proof. intros H. unfold edits. rewrite filter_cons_False; [done | tauto]. Qed.

Lemma edits_cons_other d ds : dOp d ≠ Match → edits (d :: ds) = d :: edits ds.
Proof. intros H. unfold edits. rewrite filter_cons_True; done. Qed.

Lemma edits_app ds ds' : edits (ds ++ ds') = edits ds ++ edits ds'.
Proof. apply filter_app. Qed.

Lemma edits_same_op d d' ds :
  (dOp d' = Match ↔ dOp d = Match) → (dOp d ≠ Match → d' = d) →
  edits (d' :: ds) = edits (d :: ds).
Proof.
  intros Hiff Heq. destruct (decide (dOp d = Match)) as [Hm|Hm].
  - rewrite !edits_cons_Match; tauto.
  - rewrite (Heq Hm). done.
Qed.

Lemma edits_trim_first k d ds : edits (trim_first k d :: ds) = edits (d :: ds).
Proof.
  apply edits_same_op; unfold trim_first;
    destruct (is_Match d && (Len d >? k)) eqn:E; try done.
  - apply andb_true_iff in E. destruct E as [E _]. apply is_Match_true in E.
    simpl. tauto.
  - apply andb_true_iff in E. destruct E as [E _]. apply is_Match_true in E. done.
Qed.

Lemma edits_trim_last k d ds : edits (trim_last k d :: ds) = edits (d :: ds).
Proof.
  apply edits_same_op; unfold trim_last;
    destruct (is_Match d && (Len d >? k)) eqn:E; try done.
  - apply andb_true_iff in E. destruct E as [E _]. apply is_Match_true in E.
    simpl. tauto.
  - apply andb_true_iff in E. destruct E as [E _]. apply is_Match_true in E. done.
Qed.

Lemma edits_interior k middle :
  edits (middle ≫= interior_records k) = edits middle.
Proof.
  induction middle as [|d middle IH]; [done|].
  rewrite bind_cons, edits_app, IH. unfold interior_records.
  destruct (decide (dOp d = Match ∧ 2 * k < Len d)) as [[Hm _]|_].
  - rewrite (edits_cons_Match d) by done.
    rewrite edits_cons_Match by done. rewrite edits_cons_Match by done. done.
  - change (d :: middle) with ([d] ++ middle). rewrite edits_app. done.
Qed.

(** X9: [Compact] never drops or changes an edit: the [Delete] and
    [Insert] records (every record that is not a [Match]) of the result are
    those of the input, in the same order, for any list of records and any
    context length. *)
Theorem Compact_keeps_edits (ds : list Diff) (k : Z) :
  edits (Compact ds k) = edits ds.
Proof.
  destruct (Compact_cases ds)
    as [->|[[d ->]|[(d0 & d1 & ->)|(first & middle & last & Hne & ->)]]].
  - done.
  - simpl. destruct (is_Match d) eqn:E; [|done].
    apply is_Match_true in E. rewrite edits_cons_Match by done. done.
  - unfold Compact.
    destruct (is_Match d0 && (Len d0 >? k)) eqn:E0.
    + apply andb_true_iff in E0. destruct E0 as [E0 _]. apply is_Match_true in E0.
      rewrite (edits_cons_Match (suffix k d0)), (edits_cons_Match d0); done.
    + destruct (is_Match d1 && (Len d1 >? k)) eqn:E1; [|done].
      apply andb_true_iff in E1. destruct E1 as [E1 _]. apply is_Match_true in E1.
      change [d0; prefix k d1] with ([d0] ++ [prefix k d1]).
      change [d0; d1] with ([d0] ++ [d1]).
      rewrite !edits_app, (edits_cons_Match (prefix k d1)), (edits_cons_Match d1); done.
  - rewrite (Compact_long first middle last k Hne).
    rewrite edits_trim_first.
    change (first :: (middle ≫= interior_records k) ++ [trim_last k last])
      with ([first] ++ (middle ≫= interior_records k) ++ [trim_last k last]).
    change (first :: middle ++ [last]) with ([first] ++ middle ++ [last]).
    rewrite !edits_app, edits_interior, edits_trim_last. done.
Qed.

(** ** How long a [Match] can be after compaction *)

Lemma trim_first_bound k d :
  dOp (trim_first k d) = Match → Len (trim_first k d) ≤ k.
Proof.
  unfold trim_first. destruct (is_Match d && (Len d >? k)) eqn:E.
  - intros _. rewrite Len_suffix. lia.
  - intros Hm. apply andb_false_iff in E. destruct E as [E|E].
    + apply is_Match_false in E. done.
    + destruct (Z.gtb_spec (Len d) k); [done | lia].
Qed.

Lemma trim_last_bound k d :
  dOp (trim_last k d) = Match → Len (trim_last k d) ≤ k.
Proof.
  unfold trim_last. destruct (is_Match d && (Len d >? k)) eqn:E.
  - intros _. rewrite Len_prefix. lia.
  - intros Hm. apply andb_false_iff in E. destruct E as [E|E].
    + apply is_Match_false in E. done.
    + destruct (Z.gtb_spec (Len d) k); [done | lia].
Qed.

Lemma interior_records_bound k d d' :
  0 ≤ k → d' ∈ interior_records k d → dOp d' = Match → Len d' ≤ 2 * k.
Proof.
  intros Hk. unfold interior_records.
  destruct (decide (dOp d = Match ∧ 2 * k < Len d)) as [H|H]; intros Hin Hm.
  - apply elem_of_cons in Hin. destruct Hin as [->|Hin].
    + unfold Len. simpl. lia.
    + apply list_elem_of_singleton in Hin. subst d'. unfold Len. simpl. lia.
  - apply list_elem_of_singleton in Hin. subst d'.
    destruct (decide (2 * k < Len d)); [tauto | lia].
Qed.

(** X10: after [Compact] with a context length [k >= 0], in a script with
    no two neighbours of the same operation, no [Match] record is longer
    than [2 * k]. *)
Theorem Compact_Match_bound (ds : list Diff) (k : Z) :
  0 ≤ k → alternating ds →
  ∀ d, d ∈ Compact ds k → dOp d = Match → Len d ≤ 2 * k.
Proof.
  intros Hk Halt d.
  destruct (Compact_cases ds)
    as [->|[[d0 ->]|[(d0 & d1 & ->)|(first & middle & last & Hne & ->)]]].
  - intros Hin. by apply elem_of_nil in Hin.
  - simpl. destruct (is_Match d0) eqn:E; intros Hin.
    + by apply elem_of_nil in Hin.
    + apply list_elem_of_singleton in Hin. subst d.
      apply is_Match_false in E. done.
  - rewrite (Compact_two d0 d1 k Halt). intros Hin Hm.
    apply elem_of_cons in Hin. destruct Hin as [->|Hin].
    + pose proof (trim_first_bound k d0 Hm). lia.
    + apply list_elem_of_singleton in Hin. subst d.
      pose proof (trim_last_bound k d1 Hm). lia.
  - rewrite (Compact_long first middle last k Hne). intros Hin Hm.
    apply elem_of_cons in Hin. destruct Hin as [->|Hin].
    + pose proof (trim_first_bound k first Hm). lia.
    + apply elem_of_app in Hin. destruct Hin as [Hin|Hin].
      * apply list_elem_of_bind in Hin. destruct Hin as (d0 & Hin & _).
        apply (interior_records_bound k d0); done.
      * apply list_elem_of_singleton in Hin. subst d.
        pose proof (trim_last_bound k last Hm). lia.
Qed.

Lemma Compact_Match_bound_witness :
  mkDiff Match 1 3 0 2
    ∈ Compact [mkDiff Delete 0 1 0 0; mkDiff Match 1 8 0 7;
               mkDiff Delete 8 9 7 7] 2 ∧
  Len (mkDiff Match 1 3 0 2) ≤ 2 * 2.
Proof.
  assert (Hin : mkDiff Match 1 3 0 2
                  ∈ Compact [mkDiff Delete 0 1 0 0; mkDiff Match 1 8 0 7;
                             mkDiff Delete 8 9 7 7] 2).
  { vm_compute. apply list_elem_of_further, list_elem_of_here. }
  split; [exact Hin|].
  apply (Compact_Match_bound
           [mkDiff Delete 0 1 0 0; mkDiff Match 1 8 0 7; mkDiff Delete 8 9 7 7] 2);
    [lia | | exact Hin | reflexivity].
  simpl. repeat split; discriminate.
Defined.

(** ** When the result is empty *)

Lemma Compact_nil_inv ds k :
  Compact ds k = [] → ds = [] ∨ ∃ d, ds = [d] ∧ dOp d = Match.
Proof.
  destruct (Compact_cases ds)
    as [->|[[d ->]|[(d0 & d1 & ->)|(first & middle & last & Hne & ->)]]].
  - auto.
  - simpl. destruct (is_Match d) eqn:E; [|done].
    apply is_Match_true in E. eauto.
  - unfold Compact.
    destruct (is_Match d0 && (Len d0 >? k)); [done|].
    destruct (is_Match d1 && (Len d1 >? k)); done.
  - rewrite (Compact_long first middle last k Hne). done.
Qed.

(** X11: [Compact] returns the empty result exactly when there is nothing
    to show: the input is empty, or it is one single [Match] record. *)
Theorem Compact_nil_iff (ds : list Diff) (k : Z) :
  Compact ds k = [] ↔ ds = [] ∨ ∃ d, ds = [d] ∧ dOp d = Match.
Proof.
  split; [apply Compact_nil_inv|].
  intros [->|(d & -> & Hm)]; [done|].
  simpl. apply is_Match_true in Hm. rewrite Hm. done.
Qed.

(** X12: compacting the script of [Make] gives the empty result exactly
    when the two sequences are identical under the predicate: they have the
    same length and every element equals the one at the same position. *)
Theorem Compact_Make_nil_iff (iface : Interface) (k : Z) :
  0 ≤ LeftLen iface → 0 ≤ RightLen iface →
  ∃ ds, Make iface = Returned ds ∧
    (Compact ds k = [] ↔
     RightLen iface = LeftLen iface ∧
     ∀ i, 0 ≤ i < LeftLen iface → Equal iface i i = true).
Proof.
  intros Hl Hr.
  destruct (Make_spec iface Hl Hr)
    as (_ & _ & ds & _ & _ & _ & EM & Hne & Hch & Hrun & _ & _).
  exists ds. split; [done|]. split.
  - intros Hnil. apply Compact_nil_inv in Hnil.
    destruct Hnil as [->|(d & -> & Hm)]; [done|].
    destruct Hch as (Hls & Hrs & Hle & Hre).
    apply Forall_cons in Hrun. destruct Hrun as [Hd _].
    unfold run_ok in Hd. rewrite Hm in Hd. destruct Hd as (_ & Hbal & Heq).
    split; [lia|]. intros i Hi.
    specialize (Heq i). rewrite Hls, Hrs in Heq. apply Heq. lia.
  - intros [Hlen Hdiag].
    rewrite (Make_identical iface Hl Hlen Hdiag) in EM.
    inversion EM; subst ds. reflexivity.
Qed.

Lemma Compact_Make_nil_iff_witness :
  ∃ ds, Make (testcase "ab" "ab") = Returned ds ∧
    (Compact ds 1 = [] ↔
     RightLen (testcase "ab" "ab") = LeftLen (testcase "ab" "ab") ∧
     ∀ i, 0 ≤ i < LeftLen (testcase "ab" "ab") →
          Equal (testcase "ab" "ab") i i = true).
Proof.
  apply (Compact_Make_nil_iff (testcase "ab" "ab") 1); simpl; lia.
Defined.

(** ** The compacted script stays in order and inside the input's ranges *)

Lemma within_start_le ds :
  ∀ l r l' r' a b,
    within l r ds l' r' → a ≤ l → b ≤ r → within a b ds l' r'.
Proof.
  destruct ds as [|d ds]; intros l r l' r' a b H Ha Hb; simpl in *.
  - lia.
  - destruct H as (? & ? & ? & ? & ?). repeat split; try done; lia.
Qed.

Lemma within_le ds :
  ∀ l r l' r', within l r ds l' r' → l ≤ l' ∧ r ≤ r'.
Proof.
  induction ds as [|d ds IH]; intros l r l' r' H; simpl in H; [done|].
  destruct H as (? & ? & ? & ? & H). apply IH in H. lia.
Qed.

Lemma within_app xs :
  ∀ ys l r m n l' r',
    within l r xs m n → within m n ys l' r' → within l r (xs ++ ys) l' r'.
Proof.
  induction xs as [|x xs IH]; intros ys l r m n l' r' Hx Hy.
  - simpl in *. apply (within_start_le ys m n); [done | lia | lia].
  - destruct Hx as (? & ? & ? & ? & Hx). simpl.
    repeat split; try done. apply (IH ys _ _ m n); done.
Qed.

Lemma within_one d l r l' r' :
  l ≤ Lstart d → r ≤ Rstart d → Lstart d ≤ Lend d → Rstart d ≤ Rend d →
  Lend d ≤ l' → Rend d ≤ r' → within l r [d] l' r'.
Proof. simpl. tauto. Qed.

Lemma within_bounds ds :
  ∀ l r l' r' d,
    within l r ds l' r' → d ∈ ds →
    l ≤ Lstart d ∧ Lstart d ≤ Lend d ∧ Lend d ≤ l' ∧
    r ≤ Rstart d ∧ Rstart d ≤ Rend d ∧ Rend d ≤ r'.
Proof.
  induction ds as [|d0 ds IH]; intros l r l' r' d H Hin.
  - by apply elem_of_nil in Hin.
  - destruct H as (? & ? & ? & ? & H).
    apply elem_of_cons in Hin. destruct Hin as [->|Hin].
    + apply within_le in H. lia.
    + specialize (IH _ _ _ _ _ H Hin). lia.
Qed.

Lemma within_adjacent ds :
  ∀ l r l' r' i d d',
    within l r ds l' r' → ds !! i = Some d → ds !! S i = Some d' →
    Lend d ≤ Lstart d' ∧ Rend d ≤ Rstart d'.
Proof.
  induction ds as [|d0 ds IH]; intros l r l' r' i d d' H Hi HSi; [done|].
  destruct H as (_ & _ & _ & _ & H).
  destruct i as [|i]; simpl in *.
  - inversion Hi; subst d0. destruct ds as [|d1 ds]; [done|].
    inversion HSi; subst d1. destruct H as (? & ? & _). done.
  - eapply IH; eauto.
Qed.

Lemma chain_app xs :
  ∀ ys l r l' r',
    chain l r (xs ++ ys) l' r' ↔ ∃ m n, chain l r xs m n ∧ chain m n ys l' r'.
Proof.
  induction xs as [|x xs IH]; intros ys l r l' r'; simpl.
  - split.
    + intros H. exists l, r. done.
    + intros (m & n & [-> ->] & H). done.
  - rewrite IH. split.
    + intros (? & ? & m & n & ? & ?). exists m, n. done.
    + intros (m & n & (? & ? & ?) & ?). repeat split; try done. eauto.
Qed.

Section WithinRecords.
Variable equal : Z → Z → bool.
Variable k : Z.
Hypothesis Hk : 0 ≤ k.

Lemma within_run d :
  run_ok equal d → within (Lstart d) (Rstart d) [d] (Lend d) (Rend d).
Proof. intros H. apply run_ok_le in H. apply within_one; lia. Qed.

Lemma within_trim_first d :
  run_ok equal d →
  within (Lstart d) (Rstart d) [trim_first k d] (Lend d) (Rend d).
Proof.
  intros Hd. unfold trim_first.
  destruct (is_Match d && (Len d >? k)) eqn:E; [|by apply within_run].
  apply andb_true_iff in E. destruct E as [Hm Hlen].
  apply is_Match_true in Hm. unfold run_ok in Hd. unfold Len in Hlen.
  rewrite Hm in Hd, Hlen.
  destruct (Z.gtb_spec (Lend d - Lstart d) k); [|done].
  apply within_one; simpl; lia.
Qed.

Lemma within_trim_last d :
  run_ok equal d →
  within (Lstart d) (Rstart d) [trim_last k d] (Lend d) (Rend d).
Proof.
  intros Hd. unfold trim_last.
  destruct (is_Match d && (Len d >? k)) eqn:E; [|by apply within_run].
  apply andb_true_iff in E. destruct E as [Hm Hlen].
  apply is_Match_true in Hm. unfold run_ok in Hd. unfold Len in Hlen.
  rewrite Hm in Hd, Hlen.
  destruct (Z.gtb_spec (Lend d - Lstart d) k); [|done].
  apply within_one; simpl; lia.
Qed.

Lemma within_interior_records d :
  run_ok equal d →
  within (Lstart d) (Rstart d) (interior_records k d) (Lend d) (Rend d).
Proof.
  intros Hd. unfold interior_records.
  destruct (decide (dOp d = Match ∧ 2 * k < Len d)) as [[Hm Hlen]|_];
    [|by apply within_run].
  unfold run_ok in Hd. unfold Len in Hlen. rewrite Hm in Hd, Hlen.
  simpl. repeat split; lia.
Qed.

Lemma within_interior middle :
  ∀ l r l' r',
    chain l r middle l' r' → Forall (run_ok equal) middle →
    within l r (middle ≫= interior_records k) l' r'.
Proof.
  induction middle as [|d middle IH]; intros l r l' r' Hch Hrun.
  - destruct Hch as [-> ->]. simpl. lia.
  - destruct Hch as (<- & <- & Hch).
    apply Forall_cons in Hrun. destruct Hrun as [Hd Hrun].
    rewrite bind_cons.
    apply (within_app _ _ _ _ (Lend d) (Rend d)).
    + by apply within_interior_records.
    + by apply IH.
Qed.

Lemma Compact_within_chain ds :
  ∀ l r l' r',
    chain l r ds l' r' → Forall (run_ok equal) ds →
    within l r (Compact ds k) l' r'.
Proof.
  intros l r l' r' Hch Hrun.
  destruct (Compact_cases ds)
    as [->|[[d ->]|[(d0 & d1 & ->)|(first & middle & last & Hne & ->)]]].
  - destruct Hch as [-> ->]. simpl. lia.
  - destruct Hch as (<- & <- & <- & <-).
    apply Forall_cons in Hrun. destruct Hrun as [Hd _].
    simpl. destruct (is_Match d); [|by apply within_run].
    apply run_ok_le in Hd. simpl. lia.
  - destruct Hch as (<- & <- & Hs0 & Hs1 & <- & <-).
    apply Forall_cons in Hrun. destruct Hrun as [Hd0 Hrun].
    apply Forall_cons in Hrun. destruct Hrun as [Hd1 _].
    pose proof (within_trim_first d0 Hd0) as H0.
    pose proof (within_trim_last d1 Hd1) as H1.
    rewrite Hs0, Hs1 in H1.
    unfold trim_first in H0. unfold trim_last in H1. unfold Compact.
    destruct (is_Match d0 && (Len d0 >? k)).
    + apply (within_app [suffix k d0] [d1] _ _ (Lend d0) (Rend d0)); [done|].
      rewrite <- Hs0, <- Hs1. by apply within_run.
    + destruct (is_Match d1 && (Len d1 >? k)).
      * apply (within_app [d0] [prefix k d1] _ _ (Lend d0) (Rend d0)); done.
      * apply (within_app [d0] [d1] _ _ (Lend d0) (Rend d0)); done.
  - rewrite (Compact_long first middle last k Hne).
    destruct Hch as (<- & <- & Hch).
    apply chain_app in Hch. destruct Hch as (m & n & Hmid & Hlast).
    destruct Hlast as (Hsl & Hsr & <- & <-).
    apply Forall_cons in Hrun. destruct Hrun as [Hf Hrun].
    apply Forall_app in Hrun. destruct Hrun as [Hrm Hrl].
    apply Forall_cons in Hrl. destruct Hrl as [Hl _].
    change (trim_first k first :: (middle ≫= interior_records k) ++ [trim_last k last])
      with ([trim_first k first] ++ (middle ≫= interior_records k) ++ [trim_last k last]).
    apply (within_app _ _ _ _ (Lend first) (Rend first)); [by apply within_trim_first|].
    apply (within_app _ _ _ _ m n); [by apply within_interior|].
    rewrite <- Hsl, <- Hsr. by apply within_trim_last.
Qed.
End WithinRecords.

(** X13: compacting a well-formed script for two sequences whose lengths
    are [int]s, with a context length [k >= 0] whose double is an [int]
    ([2 * k <= MaxInt64]), introduces no index of its own and keeps the
    order: every record of the result lies inside [[0, nl]] on the left and
    [[0, nr]] on the right with its start before its end, and each record
    starts at or after the end of the one before it, on both sides (so
    every gap is a skipped stretch of non-negative length). *)
Theorem Compact_ordered (equal : Z → Z → bool) (nl nr : Z) (ds : list Diff) (k : Z) :
  well_formed equal nl nr ds → nl ≤ MaxInt64 → nr ≤ MaxInt64 →
  0 ≤ k → 2 * k ≤ MaxInt64 →
  (∀ d, d ∈ Compact64 ds k →
        0 ≤ Lstart d ∧ Lstart d ≤ Lend d ∧ Lend d ≤ nl ∧
        0 ≤ Rstart d ∧ Rstart d ≤ Rend d ∧ Rend d ≤ nr) ∧
  (∀ i d d', Compact64 ds k !! i = Some d → Compact64 ds k !! S i = Some d' →
             Lend d ≤ Lstart d' ∧ Rend d ≤ Rstart d').
Proof.
  intros (_ & Hch & Hrun & _) Hnl Hnr Hk H2k.
  rewrite (Compact64_exact ds k Hk H2k
             (chain_fits equal ds 0 0 nl nr Hch Hrun
                (Z.le_refl 0) (Z.le_refl 0) Hnl Hnr)).
  pose proof (Compact_within_chain equal k Hk ds 0 0 nl nr Hch Hrun) as Hw.
  split.
  - intros d Hd. apply (within_bounds _ _ _ _ _ _ Hw Hd).
  - intros i d d'. apply (within_adjacent _ _ _ _ _ _ _ _ Hw).
Qed.

Lemma Compact_ordered_witness :
  let ds := [mkDiff Delete 0 1 0 0; mkDiff Match 1 8 0 7; mkDiff Delete 8 9 7 7] in
  (∀ d, d ∈ Compact64 ds 2 →
        0 ≤ Lstart d ∧ Lstart d ≤ Lend d ∧ Lend d ≤ 9 ∧
        0 ≤ Rstart d ∧ Rstart d ≤ Rend d ∧ Rend d ≤ 7) ∧
  (∀ i d d', Compact64 ds 2 !! i = Some d → Compact64 ds 2 !! S i = Some d' →
             Lend d ≤ Lstart d' ∧ Rend d ≤ Rstart d').
Proof.
  intros ds.
  apply (Compact_ordered (fun _ _ => true) 9 7 ds 2);
    [|unfold MaxInt64; lia|unfold MaxInt64; lia|lia|unfold MaxInt64; lia].
  split; [done|]. split; [simpl; repeat split; reflexivity|]. split.
  - repeat (apply Forall_cons; split); try apply Forall_nil;
      unfold run_ok; simpl; repeat split; try lia; reflexivity.
  - simpl. repeat split; discriminate.
Defined.

(** ** Nothing to trim *)

Lemma trim_first64_short k d :
  (dOp d = Match → Len64 d ≤ k) → trim_first64 k d = d.
Proof.
  intros H. unfold trim_first64. destruct (is_Match d) eqn:E; [|done].
  apply is_Match_true in E. specialize (H E).
  destruct (Z.gtb_spec (Len64 d) k); [lia | done].
Qed.

Lemma trim_last64_short k d :
  (dOp d = Match → Len64 d ≤ k) → trim_last64 k d = d.
Proof.
  intros H. unfold trim_last64. destruct (is_Match d) eqn:E; [|done].
  apply is_Match_true in E. specialize (H E).
  destruct (Z.gtb_spec (Len64 d) k); [lia | done].
Qed.

Lemma compact_middle64_short k out d :
  0 ≤ k → 2 * k ≤ MaxInt64 → (dOp d = Match → Len64 d ≤ k) →
  compact_middle64 k out d = out ++ [d].
Proof.
  intros Hk H2k H. unfold compact_middle64.
  rewrite (wrap_small (k * 2)) by (unfold MinInt64, MaxInt64 in *; lia).
  destruct (is_Match d) eqn:E; [|done].
  apply is_Match_true in E. specialize (H E).
  destruct (Z.gtb_spec (Len64 d) (k * 2)); [lia | done].
Qed.

Lemma foldl_compact_middle64_short k middle :
  0 ≤ k → 2 * k ≤ MaxInt64 →
  Forall (fun d => dOp d = Match → Len64 d ≤ k) middle →
  ∀ out, foldl (compact_middle64 k) out middle = out ++ middle.
Proof.
  intros Hk H2k. induction middle as [|d middle IH]; intros H out; cbn [foldl].
  - rewrite app_nil_r. done.
  - apply Forall_cons in H. destruct H as [Hd H].
    rewrite compact_middle64_short, (IH H), <- app_assoc by done. done.
Qed.

(** X14: with a context length [k >= 0] whose double is an [int]
    ([2 * k <= MaxInt64]) and that the length [Len()] of no [Match] record
    exceeds, [Compact] returns the script as it is, unless the script is
    one single [Match] record (which it empties). *)
Theorem Compact_nothing_to_trim (ds : list Diff) (k : Z) :
  0 ≤ k → 2 * k ≤ MaxInt64 →
  Forall (fun d => dOp d = Match → Len64 d ≤ k) ds →
  (∀ d, ds = [d] → dOp d ≠ Match) →
  Compact64 ds k = ds.
Proof.
  intros Hk H2k Hshort Hone.
  destruct (Compact_cases ds)
    as [->|[[d ->]|[(d0 & d1 & ->)|(first & middle & last & Hne & ->)]]].
  - done.
  - simpl. specialize (Hone d eq_refl). apply is_Match_false in Hone.
    rewrite Hone. done.
  - apply Forall_cons in Hshort. destruct Hshort as [H0 Hshort].
    apply Forall_cons in Hshort. destruct Hshort as [H1 _].
    pose proof (trim_first64_short k d0 H0) as E0.
    pose proof (trim_last64_short k d1 H1) as E1.
    unfold trim_first64 in E0. unfold trim_last64 in E1. unfold Compact64.
    destruct (is_Match d0 && (Len64 d0 >? k)); [by rewrite E0|].
    destruct (is_Match d1 && (Len64 d1 >? k)); [by rewrite E1 | done].
  - rewrite (Compact64_long first middle last k Hne).
    apply Forall_cons in Hshort. destruct Hshort as [Hf Hshort].
    apply Forall_app in Hshort. destruct Hshort as [Hm Hl].
    apply Forall_cons in Hl. destruct Hl as [Hl _].
    rewrite foldl_compact_middle64_short by done.
    rewrite trim_first64_short, trim_last64_short by done.
    rewrite <- app_assoc. done.
Qed.

Lemma Compact_nothing_to_trim_witness :
  Compact64 [mkDiff Delete 0 2 0 0; mkDiff Match 2 4 0 2;
             mkDiff Insert 4 4 2 4; mkDiff Match 4 5 4 5] 2
  = [mkDiff Delete 0 2 0 0; mkDiff Match 2 4 0 2;
     mkDiff Insert 4 4 2 4; mkDiff Match 4 5 4 5].
Proof.
  apply (Compact_nothing_to_trim
           [mkDiff Delete 0 2 0 0; mkDiff Match 2 4 0 2;
            mkDiff Insert 4 4 2 4; mkDiff Match 4 5 4 5] 2);
    [lia | unfold MaxInt64; lia | | done].
  repeat (apply Forall_cons; split); try apply Forall_nil;
    simpl; intros;
    first [discriminate | done | apply Z.leb_le; vm_compute; reflexivity].
Defined.

(** ** The records of the compacted script are still runs *)

Section RunsKept.
Variable equal : Z → Z → bool.
Variable k : Z.
Hypothesis Hk : 0 ≤ k.

Lemma run_ok_prefix d :
  run_ok equal d → dOp d = Match → k ≤ Len d → run_ok equal (prefix k d).
Proof.
  unfold run_ok, Len, prefix. intros Hd Hm Hlen. rewrite Hm in *. simpl.
  destruct Hd as (Hle & Hbal & Heq).
  split; [lia|]. split; [lia|]. intros i Hi. apply Heq. lia.
Qed.

Lemma run_ok_suffix d :
  run_ok equal d → dOp d = Match → k ≤ Len d → run_ok equal (suffix k d).
Proof.
  unfold run_ok, Len, suffix. intros Hd Hm Hlen. rewrite Hm in *. simpl.
  destruct Hd as (Hle & Hbal & Heq).
  split; [lia|]. split; [lia|]. intros i Hi.
  replace (Lend d - k + i) with (Lstart d + (Lend d - Lstart d - k + i)) by lia.
  replace (Rend d - k + i) with (Rstart d + (Lend d - Lstart d - k + i)) by lia.
  apply Heq. lia.
Qed.

Lemma run_ok_trim_first d : run_ok equal d → run_ok equal (trim_first k d).
Proof.
  intros Hd. unfold trim_first.
  destruct (is_Match d && (Len d >? k)) eqn:E; [|done].
  apply andb_true_iff in E. destruct E as [Hm Hlen]. apply is_Match_true in Hm.
  destruct (Z.gtb_spec (Len d) k); [|done].
  apply run_ok_suffix; [done | done | lia].
Qed.

Lemma run_ok_trim_last d : run_ok equal d → run_ok equal (trim_last k d).
Proof.
  intros Hd. unfold trim_last.
  destruct (is_Match d && (Len d >? k)) eqn:E; [|done].
  apply andb_true_iff in E. destruct E as [Hm Hlen]. apply is_Match_true in Hm.
  destruct (Z.gtb_spec (Len d) k); [|done].
  apply run_ok_prefix; [done | done | lia].
Qed.

Lemma run_ok_interior_records d :
  run_ok equal d → Forall (run_ok equal) (interior_records k d).
Proof.
  intros Hd. unfold interior_records.
  destruct (decide (dOp d = Match ∧ 2 * k < Len d)) as [[Hm Hlen]|_].
  - apply Forall_cons. split; [|apply Forall_cons; split; [|done]].
    + apply (run_ok_prefix d); [done | done | lia].
    + apply (run_ok_suffix d); [done | done | lia].
  - apply Forall_cons. done.
Qed.

Lemma run_ok_interior middle :
  Forall (run_ok equal) middle →
  Forall (run_ok equal) (middle ≫= interior_records k).
Proof.
  induction middle as [|d middle IH]; intros H; [done|].
  apply Forall_cons in H. destruct H as [Hd H].
  rewrite bind_cons. apply Forall_app. split; [by apply run_ok_interior_records | auto].
Qed.
End RunsKept.

(** X15: [Compact] with a context length [k >= 0] whose double is an
    [int] ([2 * k <= MaxInt64]) keeps every record a run of its operation.
    For records with indices from [0] to [MaxInt64]: if in the input every
    [Match] covers as many left as right positions and pairs equal
    elements, every [Delete] covers no right position and every [Insert]
    no left position, then the same holds of every record of the result;
    in particular the trimmed [Match] records still match equal elements
    position by position. *)
Theorem Compact_runs_ok (equal : Z → Z → bool) (ds : list Diff) (k : Z) :
  0 ≤ k → 2 * k ≤ MaxInt64 → Forall fits ds →
  Forall (run_ok equal) ds → Forall (run_ok equal) (Compact64 ds k).
Proof.
  intros Hk H2k Hfits Hrun. rewrite (Compact64_exact ds k Hk H2k Hfits).
  destruct (Compact_cases ds)
    as [->|[[d ->]|[(d0 & d1 & ->)|(first & middle & last & Hne & ->)]]].
  - done.
  - simpl. destruct (is_Match d); done.
  - apply Forall_cons in Hrun. destruct Hrun as [H0 Hrun].
    apply Forall_cons in Hrun. destruct Hrun as [H1 _].
    pose proof (run_ok_trim_first equal k Hk d0 H0) as E0.
    pose proof (run_ok_trim_last equal k Hk d1 H1) as E1.
    unfold trim_first in E0. unfold trim_last in E1. unfold Compact.
    destruct (is_Match d0 && (Len d0 >? k)).
    + apply Forall_cons. split; [done|]. apply Forall_cons. done.
    + destruct (is_Match d1 && (Len d1 >? k));
        (apply Forall_cons; split; [done|]; apply Forall_cons; done).
  - rewrite (Compact_long first middle last k Hne).
    apply Forall_cons in Hrun. destruct Hrun as [Hf Hrun].
    apply Forall_app in Hrun. destruct Hrun as [Hm Hl].
    apply Forall_cons in Hl. destruct Hl as [Hl _].
    apply Forall_cons. split; [by apply run_ok_trim_first|].
    apply Forall_app. split; [by apply run_ok_interior|].
    apply Forall_cons. split; [by apply run_ok_trim_last | done].
Qed.

Lemma Compact_runs_ok_witness :
  Forall (run_ok (fun _ _ => true))
    (Compact64 [mkDiff Delete 0 1 0 0; mkDiff Match 1 8 0 7; mkDiff Delete 8 9 7 7] 2).
Proof.
  apply (Compact_runs_ok (fun _ _ => true)
           [mkDiff Delete 0 1 0 0; mkDiff Match 1 8 0 7; mkDiff Delete 8 9 7 7] 2);
    [lia | unfold MaxInt64; lia | |].
  - repeat (apply Forall_cons; split); try apply Forall_nil;
      unfold fits, MaxInt64; simpl; repeat split; try lia; discriminate.
  - repeat (apply Forall_cons; split); try apply Forall_nil;
      unfold run_ok; simpl; repeat split; try lia; reflexivity.
Defined.

(** ** The example program prints a faithful diff *)

Lemma slice_one {A} (s : list A) i x :
  0 ≤ i → s !! Z.to_nat i = Some x → slice s i (i + 1) = [x].
Proof.
  intros Hi Hx. apply list_eq. intros j. rewrite slice_lookup by done.
  destruct j as [|j].
  - rewrite decide_True by lia. simpl. rewrite Z.add_0_r. done.
  - rewrite decide_False by lia. done.
Qed.

Lemma print_lines_spec pre lines lo hi out :
  0 ≤ lo → lo ≤ hi → hi ≤ Z.of_nat (length lines) →
  print_lines pre lines lo hi out =
    Returned (out ++ (String.append pre <$> slice lines lo hi)).
Proof.
  intros Hlo Hle Hhi. unfold print_lines.
  destruct (for_range_seqZ
              (fun i o => o = out ++ (String.append pre <$> slice lines lo i))
              (fun i out => line <~ index lines i ;;
                 Returned (out ++ [String.append pre line]))
              lo (hi - lo) out) as (o & E & Ho); [lia | | |].
  - rewrite slice_nil. simpl. rewrite app_nil_r. done.
  - intros i o Hi ->.
    destruct (lookup_lt_is_Some_2 lines (Z.to_nat i)) as [x Hx]; [lia|].
    assert (Ex : index lines i = Returned x)
      by (apply index_Returned; split; [lia | done]).
    rewrite Ex. cbn [bind]. eexists. split; [done|].
    rewrite <- (slice_app lines lo i (i + 1)) by lia.
    rewrite (slice_one lines i x) by (done || lia).
    rewrite fmap_app, app_assoc. done.
  - rewrite E, Ho. replace (lo + (hi - lo)) with hi by lia. done.
Qed.

Lemma print_chain equal LeftLines RightLines ds :
  ∀ l r l' r' out,
    chain l r ds l' r' → Forall (run_ok equal) ds →
    0 ≤ l → 0 ≤ r →
    l' ≤ Z.of_nat (length LeftLines) → r' ≤ Z.of_nat (length RightLines) →
    for_each ds (print_Diff LeftLines RightLines) out =
      Returned (out ++ (ds ≫= printed_of_Diff LeftLines RightLines)).
Proof.
  induction ds as [|d ds IH]; intros l r l' r' out Hch Hrun Hl Hr Hl' Hr'.
  - simpl. rewrite app_nil_r. done.
  - destruct Hch as (<- & <- & Hch).
    apply Forall_cons in Hrun. destruct Hrun as [Hd Hrun].
    pose proof (run_ok_le _ _ Hd) as [Hdl Hdr].
    destruct (chain_cover _ _ _ _ _ _ Hch Hrun) as (Hcl & Hcr & _).
    cbn [for_each]. rewrite bind_cons, app_assoc.
    assert (E : print_Diff LeftLines RightLines d out =
                Returned (out ++ printed_of_Diff LeftLines RightLines d)).
    { unfold print_Diff, printed_of_Diff. unfold run_ok in Hd.
      destruct (dOp d); try done; apply print_lines_spec; lia. }
    rewrite E. cbn [bind]. apply (IH (Lend d) (Rend d) l' r'); try done; lia.
Qed.

Lemma substring_all s : String.substring 0 (String.length s) s = s.
Proof. induction s as [|c s IH]; simpl; [done | by rewrite IH]. Qed.

Lemma text_marked (c1 c2 c3 c4 : ascii) s :
  text (String c1 (String c2 (String c3 (String c4 s)))) = s.
Proof. unfold text. simpl. rewrite Nat.sub_0_r. apply substring_all. Qed.

Lemma lines_without_app m out out' :
  lines_without m (out ++ out') = lines_without m out ++ lines_without m out'.
Proof. unfold lines_without. rewrite List.filter_app, fmap_app. done. Qed.

Lemma lines_without_bind {A} m (f : A → list string) (xs : list A) :
  lines_without m (xs ≫= f) = xs ≫= (fun x => lines_without m (f x)).
Proof.
  induction xs as [|x xs IH]; [done|].
  rewrite !bind_cons, lines_without_app, IH. done.
Qed.

(** lines printed with another marker are kept, with their text *)
Lemma lines_without_other m pre xs :
  String.length pre = 4%nat → String.eqb pre m = false →
  lines_without m (String.append pre <$> xs) = xs.
Proof.
  intros Hlen Hne.
  destruct pre as [|c1 [|c2 [|c3 [|c4 [|c5 pre]]]]]; try done.
  induction xs as [|x xs IH]; [done|].
  rewrite fmap_cons. unfold lines_without in *. cbn [List.filter].
  replace (marker (String.append (String c1 (String c2 (String c3 (String c4 ""))))
                     x))
    with (String c1 (String c2 (String c3 (String c4 EmptyString))))
    by (unfold marker; simpl; destruct x; done).
  rewrite Hne. cbn [negb]. rewrite fmap_cons, IH. f_equal.
  simpl. apply text_marked.
Qed.

(** lines printed with the marker [m] are left out *)
Lemma lines_without_same m xs :
  String.length m = 4%nat →
  lines_without m (String.append m <$> xs) = [].
Proof.
  intros Hlen.
  destruct m as [|c1 [|c2 [|c3 [|c4 [|c5 pre]]]]]; try done.
  induction xs as [|x xs IH]; [done|].
  rewrite fmap_cons. unfold lines_without in *. cbn [List.filter].
  replace (marker (String.append (String c1 (String c2 (String c3 (String c4 ""))))
                     x))
    with (String c1 (String c2 (String c3 (String c4 EmptyString))))
    by (unfold marker; simpl; destruct x; done).
  rewrite String.eqb_refl. cbn [negb]. apply IH.
Qed.

Lemma StringCompare_respects LeftLines RightLines :
  respects (Equal (StringCompare LeftLines RightLines)) LeftLines RightLines.
Proof.
  intros l r x y Hl Hr He Hx Hy. simpl in He.
  destruct (Z.ltb_spec l 0); [lia|]. destruct (Z.ltb_spec r 0); [lia|].
  simpl in He. rewrite Hx, Hy in He. by apply String.eqb_eq.
Qed.

Lemma lines_without_minus_printed LeftLines RightLines d :
  lines_without "--- " (printed_of_Diff LeftLines RightLines d)
  = apply_Diff LeftLines RightLines d.
Proof.
  unfold printed_of_Diff, apply_Diff. destruct (dOp d); try done.
  - apply lines_without_other; done.
  - apply lines_without_same; done.
  - apply lines_without_other; done.
Qed.

Lemma lines_without_plus_printed LeftLines RightLines d :
  lines_without "+++ " (printed_of_Diff LeftLines RightLines d)
  = left_of_Diff LeftLines d.
Proof.
  unfold printed_of_Diff, left_of_Diff. destruct (dOp d); try done.
  - apply lines_without_other; done.
  - apply lines_without_other; done.
  - apply lines_without_same; done.
Qed.

(** X16: the example program never panics, whatever two lists of lines it
    is given -- neither in [Make], nor in the [Equal] of its
    [StringCompare], which indexes the two lists and is called by [Make]
    with positions inside them only, nor in the printing loop -- and what
    it prints is a faithful diff: the texts of the printed lines other than
    the ["--- "] lines are the right lines, in order, and the texts of the
    printed lines other than the ["+++ "] lines are the left lines. *)
Theorem main_on_faithful (LeftLines RightLines : list string) :
  ∃ out, main_on LeftLines RightLines = Returned out ∧
    lines_without "--- " out = RightLines ∧
    lines_without "+++ " out = LeftLines.
Proof.
  destruct (Make_spec (StringCompare LeftLines RightLines))
    as (_ & _ & ds & _ & _ & _ & EM & _ & Hch & Hrun & _ & _);
    [simpl; lia | simpl; lia |].
  simpl in Hch.
  exists (ds ≫= printed_of_Diff LeftLines RightLines).
  split; [|split].
  - unfold main_on. rewrite MakeE_StringCompareE, EM. cbn [bind].
    rewrite (print_chain _ LeftLines RightLines ds 0 0 _ _ [] Hch Hrun); try lia.
    done.
  - rewrite lines_without_bind.
    rewrite (list_bind_ext _ (apply_Diff LeftLines RightLines) ds ds);
      [|intros d; apply lines_without_minus_printed | done].
    destruct (apply_chain _ LeftLines RightLines ds 0 0 _ _ Hch Hrun) as [_ H];
      try lia.
    unfold apply_script in H. rewrite H by apply StringCompare_respects.
    apply slice_all.
  - rewrite lines_without_bind.
    rewrite (list_bind_ext _ (left_of_Diff LeftLines) ds ds);
      [|intros d; apply lines_without_plus_printed | done].
    pose proof (left_of_chain _ LeftLines ds 0 0 _ _ Hch Hrun) as H.
    unfold left_of_script in H. rewrite H by lia.
    apply slice_all.
Qed.

(** what [main] prints for the lines it is written with *)
Example main_prints :
  main = Returned ["    the"; "    quick"; "    brown"; "--- fox"; "+++ dog";
                   "    jumps"; "    over"; "    the"; "    lazy";
                   "--- dog"; "+++ fox"]%string.
Proof. vm_compute. reflexivity. Qed.

(** ** [Make] asks [Equal] only about positions of the two sequences *)

(** X17: [Make] calls [Equal(l, r)] only with [0 <= l < NL] and
    [0 <= r < NR]: two interfaces that report the same lengths and agree on
    these index pairs get the same result, whatever their predicates do
    elsewhere. *)
Theorem Make_reads_Equal_in_range (iface iface' : Interface) :
  LeftLen iface' = LeftLen iface → RightLen iface' = RightLen iface →
  (∀ l r, 0 ≤ l < LeftLen iface → 0 ≤ r < RightLen iface →
          Equal iface l r = Equal iface' l r) →
  Make iface = Make iface'.
Proof.
  intros Hl Hr H. unfold Make. rewrite Hl, Hr.
  rewrite (build_table_ext _ _ (Equal iface) (Equal iface') H). done.
Qed.

Lemma Make_reads_Equal_in_range_witness :
  Make (mkInterface 1 1 (fun l r => l =? r)) =
  Make (mkInterface 1 1 (fun l r => (l =? r) && (l <? 1))).
Proof.
  apply (Make_reads_Equal_in_range
           (mkInterface 1 1 (fun l r => l =? r))
           (mkInterface 1 1 (fun l r => (l =? r) && (l <? 1))));
    [reflexivity | reflexivity |].
  simpl. intros l r Hl Hr. assert (l = 0) as -> by lia.
  assert (r = 0) as -> by lia. reflexivity.
Defined.

(** ** The last record *)

Lemma record_anchored o0 o l r st : anchored o0 st → anchored o0 (record o l r st).
Proof.
  unfold anchored, record. destruct st as [ds ld]. cbn [diffs lastdiff dOp].
  destruct (decide (o ≠ dOp ld)); cbn [diffs lastdiff dOp].
  - destruct ds as [|d ds]; simpl; done.
  - done.
Qed.

Lemma trace_anchored o0 table fuel :
  ∀ l r st st',
    trace fuel table l r st = Returned st' → anchored o0 st → anchored o0 st'.
Proof.
  induction fuel as [|fuel IH]; intros l r st st' Ht Ha; cbn [trace] in Ht;
    destruct ((l >? 0) || (r >? 0)); try done; try (inversion Ht; subst; done).
  destruct (index2 table l r) as [c| |]; try done. cbn [bind] in Ht.
  pose proof (record_anchored o0 (op c) l r st Ha) as Ha'.
  destruct (op c); try done; eapply IH; eauto.
Qed.

(** X18: the script is anchored at the end: for two non-empty sequences
    the last record of the script of [Make] is a [Match] exactly when the
    last left element equals the last right element. *)
Theorem Make_last_record (iface : Interface) :
  1 ≤ LeftLen iface → 1 ≤ RightLen iface →
  ∃ ds d, Make iface = Returned ds ∧ last ds = Some d ∧
    (dOp d = Match ↔
     Equal iface (LeftLen iface - 1) (RightLen iface - 1) = true).
Proof.
  intros Hl Hr.
  destruct (Make_trace iface ltac:(lia) ltac:(lia))
    as (table & c & st' & Hok & Hc & Et & _ & EM).
  pose proof (trace_anchored (op c) _ _ _ _ _ _ Et eq_refl) as Ha.
  assert (Hopc : op c = Match ↔
            Equal iface (LeftLen iface - 1) (RightLen iface - 1) = true).
  { destruct (ok_inner _ _ _ _ Hok (LeftLen iface) (RightLen iface))
      as (lc & rc & lrc & _ & _ & _ & H4); [lia..|].
    rewrite H4 in Hc. inversion Hc; subst c. unfold step_cell.
    destruct (Equal iface (LeftLen iface - 1) (RightLen iface - 1)); [done|].
    destruct (clength lc <? clength rc); simpl; split; done. }
  exists (collected 0 0 st').
  unfold collected, anchored in *.
  destruct (diffs st') as [|d0 rest] eqn:Ed.
  - exists (pending 0 0 st'). split; [done|]. split; [done|].
    unfold pending. cbn [dOp]. rewrite Ha. done.
  - exists d0. split; [done|]. split; [|rewrite Ha; done].
    rewrite last_cons, last_reverse. done.
Qed.

Lemma Make_last_record_witness :
  ∃ ds d, Make (testcase "aBaCa" "aCaBa") = Returned ds ∧ last ds = Some d ∧
    (dOp d = Match ↔
     Equal (testcase "aBaCa" "aCaBa")
       (LeftLen (testcase "aBaCa" "aCaBa") - 1)
       (RightLen (testcase "aBaCa" "aCaBa") - 1) = true).
Proof.
  apply (Make_last_record (testcase "aBaCa" "aCaBa")); simpl; lia.
Defined.

(** ** Exchanging the two sides *)

Lemma cs_exchange equal ps :
  ∀ a b hl hr,
    common_subseq equal a b hl hr ps →
    common_subseq (fun l r => equal r l) b a hr hl (prod_swap <$> ps).
Proof.
  induction ps as [|[i j] ps IH]; intros a b hl hr H; [done|].
  destruct H as (Hi & Hj & He & H). rewrite fmap_cons. simpl.
  repeat split; try done; try lia. by apply IH.
Qed.

(** the matched pairs of the script are a longest common subsequence *)
Lemma Make_matched_longest (iface : Interface) :
  0 ≤ LeftLen iface → 0 ≤ RightLen iface →
  ∃ ds, Make iface = Returned ds ∧
    (∃ ps, common_subseq (Equal iface) 0 0 (LeftLen iface) (RightLen iface) ps ∧
           Z.of_nat (length ps) = match_total ds) ∧
    (∀ ps, common_subseq (Equal iface) 0 0 (LeftLen iface) (RightLen iface) ps →
           Z.of_nat (length ps) ≤ match_total ds).
Proof.
  intros Hl Hr.
  destruct (Make_spec iface Hl Hr)
    as (table & c & ds & _ & Hok & Hc & EM & _ & Hch & Hrun & _ & Htot).
  exists ds. split; [done|].
  destruct (chain_matched _ _ _ _ _ _ Hch Hrun) as [Hcs Hlen].
  split; [eauto|].
  intros ps Hps. rewrite Htot.
  apply (lcs_upper (Equal iface) _ _ table Hok
           (Z.to_nat (LeftLen iface + RightLen iface))
           (LeftLen iface) (RightLen iface)); try done; lia.
Qed.

(** X19: exchanging the two sequences does not change how much is
    matched: the [Match] records of [Make] on the exchanged interface have
    the same total length as those of [Make] on the interface itself
    (the records themselves may differ). *)
Theorem Make_exchange_match_total (iface : Interface) :
  0 ≤ LeftLen iface → 0 ≤ RightLen iface →
  ∃ ds ds', Make iface = Returned ds ∧ Make (exchange iface) = Returned ds' ∧
    match_total ds' = match_total ds.
Proof.
  intros Hl Hr.
  destruct (Make_matched_longest iface Hl Hr) as (ds & EM & (ps & Hps & Hlen) & Hmax).
  destruct (Make_matched_longest (exchange iface) Hr Hl)
    as (ds' & EM' & (ps' & Hps' & Hlen') & Hmax').
  exists ds, ds'. split; [done|]. split; [done|].
  simpl in *.
  apply cs_exchange in Hps. apply cs_exchange in Hps'.
  specialize (Hmax' _ Hps). specialize (Hmax _ Hps').
  rewrite length_fmap in Hmax, Hmax'. lia.
Qed.

Lemma Make_exchange_match_total_witness :
  ∃ ds ds', Make (testcase "aBaCa" "aCaBa") = Returned ds ∧
    Make (exchange (testcase "aBaCa" "aCaBa")) = Returned ds' ∧
    match_total ds' = match_total ds.
Proof.
  apply (Make_exchange_match_total (testcase "aBaCa" "aCaBa")); simpl; lia.
Defined.
